(** * untyped: a parser and evaluator for the untyped lambda calculus

    A shallow embedding of [untyped/ast.py], [untyped/parse.py],
    [untyped/eval.py], [untyped/exc.py] and [untyped/util/either.py].

    Conventions of the embedding.
    - A Python [str] is a [string] of 8-bit characters.
    - A Python [int] used as an index or a counter is a [nat]; the one place
      where the source computes [pos - 1] the index is a [Z] and the
      negative-index rule of Python lists is written out ([py_getitem]).
    - A Python computation is a value of [run A]: it returns ([Done]), raises
      an exception ([Raise]) or, for the recursive functions whose
      termination is not structural, exhausts the recursion budget of the
      model ([OutOfFuel]).  The interpreter's own recursion limit is not
      modelled. *)

From Stdlib Require Import ZArith Lia Ascii String DecimalString.
From stdpp Require Import base option list gmap strings.

Local Open Scope Z_scope.
Local Open Scope nat_scope.

(** ** Exceptions and results *)

Inductive PyExc : Type :=
| IndexError
| AttributeError
| ValueError (msg : string)
| SyntaxError (msg : string).

Inductive run (A : Type) : Type :=
| Done (a : A)
| Raise (x : PyExc)
| OutOfFuel.
Arguments Done {A} a.
Arguments Raise {A} x.
Arguments OutOfFuel {A}.

Definition run_bind {A B : Type} (f : A → run B) (m : run A) : run B :=
  match m with
  | Done a => f a
  | Raise x => Raise x
  | OutOfFuel => OutOfFuel
  end.

#[global] Instance run_mbind : MBind run := @run_bind.
#[global] Instance run_mret : MRet run := @Done.

(** [untyped/util/either.py] *)
Inductive Either (T E : Type) : Type :=
| Ok (value : T)
| Err (value : E).
Arguments Ok {T E} value.
Arguments Err {T E} value.

(** [untyped/exc.py] *)
Record UntypedError : Type := MkUntypedError {
  message : string;
  err_file : string;
  err_line : nat;
  err_col : nat
}.

(** ** Python helpers *)

(** [str(n)] for a non-negative [int]. *)
Definition str_of_nat (n : nat) : string :=
  NilZero.string_of_uint (Nat.to_uint n).

(** [l[i]] for a Python list: a negative index counts from the end, an index
    out of range raises [IndexError]. *)
Definition py_getitem {A : Type} (l : list A) (i : Z) : run A :=
  let n := Z.of_nat (length l) in
  let j := (if i <? 0 then n + i else i)%Z in
  if ((0 <=? j) && (j <? n))%Z
  then match l !! Z.to_nat j with
       | Some a => Done a
       | None => Raise IndexError
       end
  else Raise IndexError.

(** [c in chars] for a one-character string [c]. *)
Definition char_in (c : ascii) (chars : string) : bool :=
  existsb (Ascii.eqb c) (list_ascii_of_string chars).

(** [s[a:b]] for [0 <= a]: slices are clipped to the string. *)
Definition py_slice (s : string) (a b : nat) : string :=
  substring a (b - a) s.

(** [name.split('$')[0]]: the text before the first dollar sign. *)
Fixpoint split_dollar_head (name : string) : string :=
  match name with
  | EmptyString => EmptyString
  | String c rest =>
      if Ascii.eqb c "$" then EmptyString else String c (split_dollar_head rest)
  end.

(** ** The AST, [untyped/ast.py] *)

(** The [file], [line], [col] fields of [ASTNode]. *)
Record Loc : Type := MkLoc {
  loc_file : string;
  loc_line : nat;
  loc_col : nat
}.

(** An [Identifier] node.  It is both an expression and the type of a
    lambda's [param]; its [__eq__] and [__hash__] look at [name] only. *)
Record Ident : Type := MkIdent {
  id_loc : Loc;
  name : string
}.

Definition ident_eq (a b : Ident) : bool := String.eqb (name a) (name b).

Inductive Expression : Type :=
| Identifier (i : Ident)
| Lambda (l : Loc) (param : Ident) (body : Expression)
| Parentheses (l : Loc) (expr : Expression)
| Apply (l : Loc) (func applicant : Expression).

Record Binding : Type := MkBinding {
  b_loc : Loc;
  b_name : Ident;
  b_expr : Expression
}.

(** The position fields of a node. *)
Definition node_loc (e : Expression) : Loc :=
  match e with
  | Identifier i => id_loc i
  | Lambda l _ _ => l
  | Parentheses l _ => l
  | Apply l _ _ => l
  end.

Definition is_Lambda (e : Expression) : bool :=
  match e with
  | Lambda _ _ _ => true
  | _ => false
  end.

(** [__str__] of the four expression nodes. *)
Fixpoint to_str (e : Expression) : string :=
  match e with
  | Identifier i => name i
  | Lambda _ param body => (name param ++ "." ++ to_str body)%string
  | Parentheses _ expr => ("(" ++ to_str expr ++ ")")%string
  | Apply _ func applicant =>
      if is_Lambda func
      then ("(" ++ to_str func ++ ") " ++ to_str applicant)%string
      else (to_str func ++ " " ++ to_str applicant)%string
  end.

(** ** The lexer, [untyped/parse.py] *)

Inductive TokenType : Type :=
| IDENTIFIER | DOT | EQUAL | R_PAREN | L_PAREN | LET | WHERE.

#[global] Instance TokenType_eq_dec : EqDecision TokenType.
Proof. solve_decision. Defined.

(** [TokenType.name] *)
Definition type_name (t : TokenType) : string :=
  match t with
  | IDENTIFIER => "IDENTIFIER"
  | DOT => "DOT"
  | EQUAL => "EQUAL"
  | R_PAREN => "R_PAREN"
  | L_PAREN => "L_PAREN"
  | LET => "LET"
  | WHERE => "WHERE"
  end.

Record Token : Type := MkToken {
  type : TokenType;
  value : string;
  tok_loc : Loc
}.

Definition ident_start_chars : string :=
  "abcdefghijklmnopqrstuvwxyzABCDEFGHIJKLMNOPQRSTUVWXYZ_".
Definition ident_chars : string :=
  "abcdefghijklmnopqrstuvwxyzABCDEFGHIJKLMNOPQRSTUVWXYZ0123456789_".

(** The inner loop of [tokenize]:
    [while col < len(code) and code[col] in ident_chars: col += 1; cons += 1].
    [n] is [len(code) - col], the number of iterations still possible. *)
Fixpoint scan_identifier (code : string) (n col cons : nat) : nat * nat :=
  match n with
  | 0 => (col, cons)
  | S n' =>
      match String.get col code with
      | Some ch =>
          if char_in ch ident_chars
          then scan_identifier code n' (S col) (S cons)
          else (col, cons)
      | None => (col, cons)
      end
  end.

(** The variables [tokens], [line], [col], [cons] of [tokenize]. *)
Record LexState : Type := MkLexState {
  lx_tokens : list Token;
  lx_line : nat;
  lx_col : nat;
  lx_cons : nat
}.

(** One iteration of [for c in code] in [tokenize]. *)
Definition tokenize_step (file code : string) (c : ascii) (st : LexState)
  : run LexState :=
  let tokens := lx_tokens st in
  let line := lx_line st in
  let cons := lx_cons st + 1 in
  let col := lx_col st + 1 in
  if Ascii.eqb c "010" then Done (MkLexState tokens (line + 1) 0 cons)
  else if Ascii.eqb c " " then Done (MkLexState tokens line col cons)
  else if Ascii.eqb c "." then
    Done (MkLexState (tokens ++ [MkToken DOT "." (MkLoc file line col)]) line col cons)
  else if Ascii.eqb c "=" then
    Done (MkLexState (tokens ++ [MkToken EQUAL "=" (MkLoc file line col)]) line col cons)
  else if Ascii.eqb c "(" then
    Done (MkLexState (tokens ++ [MkToken L_PAREN "(" (MkLoc file line col)]) line col cons)
  else if Ascii.eqb c ")" then
    Done (MkLexState (tokens ++ [MkToken R_PAREN ")" (MkLoc file line col)]) line col cons)
  else if Ascii.eqb c "l" && String.eqb (py_slice code cons (cons + 2)) "et" then
    Done (MkLexState (tokens ++ [MkToken LET "let" (MkLoc file line col)])
            line (col + 2) (cons + 2))
  else if Ascii.eqb c "w" && String.eqb (py_slice code cons (cons + 4)) "here" then
    Done (MkLexState (tokens ++ [MkToken WHERE "where" (MkLoc file line col)])
            line (col + 4) (cons + 4))
  else if char_in c ident_start_chars then
    let start := cons - 1 in
    let sc := col in
    let '(col', cons') := scan_identifier code (String.length code - col) col cons in
    Done (MkLexState
            (tokens ++ [MkToken IDENTIFIER (py_slice code start cons') (MkLoc file line sc)])
            line col' cons')
  else
    Raise (ValueError ("Unexpected character '" ++ String c EmptyString ++ "' at "
                         ++ file ++ ":" ++ str_of_nat line ++ ":" ++ str_of_nat col)%string).

(** The [for] loop: it visits every character of [code] in turn, whatever
    the body does to [cons]. *)
Fixpoint tokenize_loop (file code : string) (rest : list ascii) (st : LexState)
  : run LexState :=
  match rest with
  | [] => Done st
  | c :: rest' =>
      st' ← tokenize_step file code c st;
      tokenize_loop file code rest' st'
  end.

Definition tokenize (file code : string) : run (list Token) :=
  st ← tokenize_loop file code (list_ascii_of_string code) (MkLexState [] 1 0 0);
  Done (lx_tokens st).

(** ** The parser, [untyped/parse.py] *)

(** [TokenType.expect] *)
Definition expect (self : TokenType) (tokens : list Token) (pos : nat)
  : run (Either Token UntypedError) :=
  match drop pos tokens with
  | [] =>
      prev ← py_getitem tokens (Z.of_nat pos - 1);
      Done (Err (MkUntypedError ("Expected " ++ type_name self ++ " but got EOF")%string
                   (loc_file (tok_loc prev)) (loc_line (tok_loc prev)) (loc_col (tok_loc prev))))
  | _ :: _ =>
      cur ← py_getitem tokens (Z.of_nat pos);
      if negb (bool_decide (type cur = self))
      then Done (Err (MkUntypedError
                        ("Expected " ++ type_name self ++ " but got "
                           ++ type_name (type cur))%string
                        (loc_file (tok_loc cur)) (loc_line (tok_loc cur)) (loc_col (tok_loc cur))))
      else Done (Ok cur)
  end.

(** The result of a parse function: [Either[tuple[Expression, int], UntypedError]]. *)
Definition PResult : Type := Either (Expression * nat) UntypedError.

(** The recursive-descent functions call each other without a structural
    measure, so each call spends one unit of [fuel]; [parse_apply_loop] is the
    [while True] loop of [parse_apply], with the loop variables [func],
    [next] and the flag [f] as arguments. *)
Fixpoint parse_lambda (fuel : nat) (tokens : list Token) (pos : nat) {struct fuel}
  : run PResult :=
  match fuel with
  | 0 => OutOfFuel
  | S fuel =>
      r ← expect IDENTIFIER tokens pos;
      match r with
      | Err e => Done (Err e)
      | Ok token =>
          let param := MkIdent (tok_loc token) (value token) in
          r ← expect DOT tokens (pos + 1);
          match r with
          | Err e => Done (Err e)
          | Ok _ =>
              r ← parse_expr fuel tokens (pos + 2);
              match r with
              | Err e => Done (Err e)
              | Ok (expr, next) =>
                  t ← py_getitem tokens (Z.of_nat pos);
                  Done (Ok (Lambda (tok_loc t) param expr, next))
              end
          end
      end
  end

with parse_parentheses (fuel : nat) (tokens : list Token) (pos : nat) {struct fuel}
  : run PResult :=
  match fuel with
  | 0 => OutOfFuel
  | S fuel =>
      r ← expect L_PAREN tokens pos;
      match r with
      | Err e => Done (Err e)
      | Ok _ =>
          r ← parse_expr fuel tokens (pos + 1);
          match r with
          | Err e => Done (Err e)
          | Ok (expr, next) =>
              r ← expect R_PAREN tokens next;
              match r with
              | Err e => Done (Err e)
              | Ok _ =>
                  t ← py_getitem tokens (Z.of_nat pos);
                  Done (Ok (Parentheses (tok_loc t) expr, next + 1))
              end
          end
      end
  end

with parse_apply (fuel : nat) (tokens : list Token) (pos : nat) {struct fuel}
  : run PResult :=
  match fuel with
  | 0 => OutOfFuel
  | S fuel =>
      r ← parse_primal_expr fuel tokens pos;
      match r with
      | Err e => Done (Err e)
      | Ok (func, next) => parse_apply_loop fuel tokens pos func next true
      end
  end

with parse_apply_loop (fuel : nat) (tokens : list Token) (pos : nat)
       (func : Expression) (next : nat) (f : bool) {struct fuel}
  : run PResult :=
  match fuel with
  | 0 => OutOfFuel
  | S fuel =>
      r ← parse_primal_expr fuel tokens next;
      match r with
      | Err e => if f then Done (Err e) else Done (Ok (func, next))
      | Ok (applicant, next') =>
          t ← py_getitem tokens (Z.of_nat pos);
          parse_apply_loop fuel tokens pos (Apply (tok_loc t) func applicant) next' false
      end
  end

with parse_primal_expr (fuel : nat) (tokens : list Token) (pos : nat) {struct fuel}
  : run PResult :=
  match fuel with
  | 0 => OutOfFuel
  | S fuel =>
      r ← parse_lambda fuel tokens pos;
      match r with
      | Ok (expr, next) => Done (Ok (expr, next))
      | Err _ =>
          r ← parse_parentheses fuel tokens pos;
          match r with
          | Ok (expr, next) => Done (Ok (expr, next))
          | Err _ =>
              r ← expect IDENTIFIER tokens pos;
              match r with
              | Err e => Done (Err e)
              | Ok token =>
                  Done (Ok (Identifier (MkIdent (tok_loc token) (value token)), pos + 1))
              end
          end
      end
  end

with parse_expr (fuel : nat) (tokens : list Token) (pos : nat) {struct fuel}
  : run PResult :=
  match fuel with
  | 0 => OutOfFuel
  | S fuel =>
      r ← parse_apply fuel tokens pos;
      match r with
      | Ok (expr, next) => Done (Ok (expr, next))
      | Err _ =>
          r ← parse_primal_expr fuel tokens pos;
          match r with
          | Ok (expr, next) => Done (Ok (expr, next))
          | Err e => Done (Err e)
          end
      end
  end.

Definition parse_binding (fuel : nat) (tokens : list Token) (pos : nat)
  : run (Either (Binding * nat) UntypedError) :=
  r ← expect LET tokens pos;
  match r with
  | Err e => Done (Err e)
  | Ok _ =>
      r ← expect IDENTIFIER tokens pos;
      match r with
      | Err e => Done (Err e)
      | Ok token =>
          let name := MkIdent (tok_loc token) (value token) in
          r ← expect EQUAL tokens (pos + 1);
          match r with
          | Err e => Done (Err e)
          | Ok _ =>
              r ← parse_expr fuel tokens (pos + 2);
              match r with
              | Err e => Done (Err e)
              | Ok (expr, next) =>
                  t ← py_getitem tokens (Z.of_nat pos);
                  Done (Ok (MkBinding (tok_loc t) name expr, next))
              end
          end
      end
  end.

(** [parse(expr, file)] *)
Definition parse (fuel : nat) (expr : string) (file : string) : run Expression :=
  tokens ← tokenize file expr;
  res ← parse_expr fuel tokens 0;
  match res with
  | Err e =>
      Raise (SyntaxError (message e ++ " at line " ++ str_of_nat (err_line e)
                            ++ " column " ++ str_of_nat (err_col e)
                            ++ " in " ++ err_file e)%string)
  | Ok (exp, next) =>
      if negb (next =? length tokens)
      then
        t ← py_getitem tokens (Z.of_nat next);
        Raise (SyntaxError ("Expected EOF but got " ++ type_name (type t)
                              ++ " at line " ++ str_of_nat (loc_line (tok_loc t))
                              ++ " column " ++ str_of_nat (loc_col (tok_loc t))
                              ++ " in " ++ loc_file (tok_loc t))%string)
      else Done exp
  end.

(** ** The substitution engine and the normalizer, [untyped/eval.py] *)

Fixpoint alpha_convert (expr : Expression) (old new : Ident) : Expression :=
  match expr with
  | Identifier ident => if ident_eq ident old then Identifier new else Identifier ident
  | Lambda l param body =>
      if ident_eq param old then expr
      else Lambda l param (alpha_convert body old new)
  | Parentheses _ e => Parentheses (node_loc e) (alpha_convert e old new)
  | Apply l func applicant =>
      Apply l (alpha_convert func old new) (alpha_convert applicant old new)
  end.

(** [unique_ident(expr, known)].  The dictionary [known] is keyed by
    identifiers, which hash and compare by name.  Every recursive call gets
    [known.copy()], and a missing or empty [known] is replaced by a new empty
    dictionary, so the updates [known[param] += 1] and [known[param] = 0] are
    seen by nobody but the call that makes them: the call returns after the
    first, and returns [expr] itself after the second. *)
Fixpoint unique_ident (expr : Expression) (known : gmap string nat) : Expression :=
  match expr with
  | Lambda l param body =>
      match known !! name param with
      | Some n =>
          let new := MkIdent (id_loc param)
                       (name param ++ "$" ++ str_of_nat (n + 1))%string in
          Lambda l new (alpha_convert body param new)
      | None => expr
      end
  | Parentheses _ e => Parentheses (node_loc e) (unique_ident e known)
  | Apply l func applicant =>
      Apply l (unique_ident func known) (unique_ident applicant known)
  | Identifier _ => expr
  end.

(** [ununique_ident._walk] on an identifier, also used for a lambda's [param]. *)
Definition ununique_name (i : Ident) : Ident :=
  MkIdent (id_loc i) (split_dollar_head (name i)).

Fixpoint ununique_ident (expr : Expression) : Expression :=
  match expr with
  | Identifier i => Identifier (ununique_name i)
  | Lambda l param body => Lambda l (ununique_name param) (ununique_ident body)
  | Parentheses _ e => Parentheses (node_loc e) (ununique_ident e)
  | Apply l func applicant => Apply l (ununique_ident func) (ununique_ident applicant)
  end.

(** [apply._walk], with the closure variables [param] and [applicant] as
    arguments. *)
Fixpoint apply_walk (param : Ident) (applicant : Expression) (expr : Expression)
  : Expression :=
  match expr with
  | Identifier ident => if ident_eq ident param then applicant else Identifier ident
  | Lambda l p body =>
      if ident_eq param p then expr
      else Lambda l p (apply_walk param applicant body)
  | Parentheses _ e => Parentheses (node_loc e) (apply_walk param applicant e)
  | Apply l f a => Apply l (apply_walk param applicant f) (apply_walk param applicant a)
  end.

(** [apply(func, applicant)].  Reading [func.param] of a node that is not a
    [Lambda] raises [AttributeError]. *)
Definition apply (func : Expression) (applicant : Expression) : run Expression :=
  match unique_ident func ∅ with
  | Lambda _ param body => Done (ununique_ident (apply_walk param applicant body))
  | _ => Raise AttributeError
  end.

(** [eval(expr)].  Evaluation need not terminate, so each call spends one
    unit of [fuel]. *)
Fixpoint eval (fuel : nat) (expr : Expression) : run Expression :=
  match fuel with
  | 0 => OutOfFuel
  | S fuel =>
      match expr with
      | Identifier _ => Done expr
      | Lambda _ _ _ => Done expr
      | Parentheses _ e => eval fuel e
      | Apply l func applicant =>
          func ← eval fuel func;
          applicant ← eval fuel applicant;
          if is_Lambda func
          then r ← apply func applicant; eval fuel r
          else Done (Apply l func applicant)
      end
  end.

(** [eval(parse(src))] *)
Definition eval_source (fuel : nat) (src : string) : run Expression :=
  e ← parse fuel src "<stdin>";
  eval fuel e.

(** ** Notions used by the statements *)

(** A tree without positions and without [Parentheses] nodes: two
    expressions with the same [shape] are structurally equal up to
    parenthesization.  Names are compared as [Identifier.__eq__] does. *)
Inductive term : Type :=
| TId (x : string)
| TLam (x : string) (body : term)
| TApp (func applicant : term).

Fixpoint shape (e : Expression) : term :=
  match e with
  | Identifier i => TId (name i)
  | Lambda _ param body => TLam (name param) (shape body)
  | Parentheses _ expr => shape expr
  | Apply _ func applicant => TApp (shape func) (shape applicant)
  end.

(** [le_run r r']: [r'] is what [r] becomes with more fuel: the same when
    [r] is a result or an exception, anything when [r] ran out of fuel. *)
Definition le_run {A : Type} (r r' : run A) : Prop := r = OutOfFuel ∨ r' = r.

(** A position, a token and an identifier node of the file "<stdin>", the
    default [file] of [parse]. *)
Definition stdin_loc (l c : nat) : Loc := MkLoc "<stdin>" l c.

Definition tok (t : TokenType) (v : string) (l c : nat) : Token :=
  MkToken t v (stdin_loc l c).

Definition ident_at (x : string) (l c : nat) : Ident :=
  MkIdent (stdin_loc l c) x.

(** [x] occurs free in [e]: as the name of an identifier that no enclosing
    lambda of [e] binds. *)
Fixpoint free_in (x : string) (e : Expression) : bool :=
  match e with
  | Identifier i => String.eqb (name i) x
  | Lambda _ param body => negb (String.eqb (name param) x) && free_in x body
  | Parentheses _ expr => free_in x expr
  | Apply _ func applicant => free_in x func || free_in x applicant
  end.

(** Every name of [e], of a binder or of an occurrence, satisfies [P]. *)
Fixpoint all_names (P : string → bool) (e : Expression) : bool :=
  match e with
  | Identifier i => P (name i)
  | Lambda _ param body => P (name param) && all_names P body
  | Parentheses _ expr => all_names P expr
  | Apply _ func applicant => all_names P func && all_names P applicant
  end.

Definition has_dollar (s : string) : bool :=
  existsb (Ascii.eqb "$") (list_ascii_of_string s).

Definition undecorated (s : string) : bool := negb (has_dollar s).

(** The nodes that [eval] leaves alone: an identifier, a lambda, or an
    application of such nodes whose function part is not a lambda. *)
Fixpoint is_value (e : Expression) : bool :=
  match e with
  | Identifier _ => true
  | Lambda _ _ _ => true
  | Parentheses _ _ => false
  | Apply _ func applicant =>
      negb (is_Lambda func) && is_value func && is_value applicant
  end.

(** No application in [e] has a lambda as its function part. *)
Fixpoint no_lambda_head (e : Expression) : bool :=
  match e with
  | Identifier _ => true
  | Lambda _ _ body => no_lambda_head body
  | Parentheses _ expr => no_lambda_head expr
  | Apply _ func applicant =>
      negb (is_Lambda func) && no_lambda_head func && no_lambda_head applicant
  end.

(** What every token of the lexer satisfies: it carries the name of the
    file, a line and a column counted from 1 and, unless it is an
    identifier, the fixed spelling of its kind. *)
Definition token_ok (file : string) (t : Token) : Prop :=
  loc_file (tok_loc t) = file ∧
  1 ≤ loc_line (tok_loc t) ∧
  1 ≤ loc_col (tok_loc t) ∧
  match type t with
  | IDENTIFIER => True
  | DOT => value t = "."
  | EQUAL => value t = "="
  | R_PAREN => value t = ")"
  | L_PAREN => value t = "("
  | LET => value t = "let"
  | WHERE => value t = "where"
  end.

(** The characters that [tokenize] skips. *)
Definition is_blank (c : ascii) : bool := Ascii.eqb c "010" || Ascii.eqb c " ".

(** The tokens that the contract of the lexer gives a text of one line
    whose identifiers have one character.  [char_token] is the token of the
    character [ch] at column [c]: none for a space, the mark for one of
    [. = ( )], else an identifier of that one character. *)
Definition char_token (file : string) (c : nat) (ch : ascii) : list Token :=
  if Ascii.eqb ch " " then []
  else if Ascii.eqb ch "." then [MkToken DOT "." (MkLoc file 1 c)]
  else if Ascii.eqb ch "=" then [MkToken EQUAL "=" (MkLoc file 1 c)]
  else if Ascii.eqb ch "(" then [MkToken L_PAREN "(" (MkLoc file 1 c)]
  else if Ascii.eqb ch ")" then [MkToken R_PAREN ")" (MkLoc file 1 c)]
  else [MkToken IDENTIFIER (String ch EmptyString) (MkLoc file 1 c)].

Fixpoint one_line_tokens (file : string) (c : nat) (chars : list ascii) : list Token :=
  match chars with
  | [] => []
  | ch :: rest => char_token file c ch ++ one_line_tokens file (S c) rest
  end.

(** Such a text: every character is a space, one of [. = ( )], or a letter
    or underscore that no identifier character follows. *)
Fixpoint single_letter_text (chars : list ascii) : bool :=
  match chars with
  | [] => true
  | ch :: rest =>
      (char_in ch " .=()"
       || char_in ch ident_start_chars
          && match rest with
             | [] => true
             | ch' :: _ => negb (char_in ch' ident_chars)
             end)
      && single_letter_text rest
  end.

(** Substitution on trees without positions, as the textbooks warn against
    it: [s] replaces the free occurrences of [x], and the binders of [t] are
    free to capture the variables of [s]. *)
Fixpoint naive_subst (x : string) (s : term) (t : term) : term :=
  match t with
  | TId y => if String.eqb y x then s else TId y
  | TLam y body => if String.eqb x y then TLam y body else TLam y (naive_subst x s body)
  | TApp func applicant => TApp (naive_subst x s func) (naive_subst x s applicant)
  end.

(** Renaming of every name of a tree, binders and occurrences alike. *)
Fixpoint rename_all (f : string → string) (t : term) : term :=
  match t with
  | TId y => TId (f y)
  | TLam y body => TLam (f y) (rename_all f body)
  | TApp func applicant => TApp (rename_all f func) (rename_all f applicant)
  end.

(** [eval] on trees without positions: the same strategy, with the
    substitution that [apply] is shown to perform. *)
Fixpoint term_eval (fuel : nat) (t : term) : run term :=
  match fuel with
  | 0 => OutOfFuel
  | S fuel =>
      match t with
      | TId _ => Done t
      | TLam _ _ => Done t
      | TApp func applicant =>
          func ← term_eval fuel func;
          applicant ← term_eval fuel applicant;
          match func with
          | TLam x body =>
              term_eval fuel (rename_all split_dollar_head (naive_subst x applicant body))
          | _ => Done (TApp func applicant)
          end
      end
  end.

(** [e] with every position erased: two expressions with the same [unloc]
    are structurally equal, parentheses included. *)
Definition no_loc : Loc := MkLoc "" 0 0.

Fixpoint unloc (e : Expression) : Expression :=
  match e with
  | Identifier i => Identifier (MkIdent no_loc (name i))
  | Lambda _ param body => Lambda no_loc (MkIdent no_loc (name param)) (unloc body)
  | Parentheses _ expr => Parentheses no_loc (unloc expr)
  | Apply _ func applicant => Apply no_loc (unloc func) (unloc applicant)
  end.

Definition is_Apply (e : Expression) : bool :=
  match e with
  | Apply _ _ _ => true
  | _ => false
  end.

(** [e] is a lambda, or an application whose argument is a lambda: read
    from left to right, its text ends inside a lambda's body. *)
Definition ends_with_Lambda (e : Expression) : bool :=
  match e with
  | Lambda _ _ _ => true
  | Apply _ _ applicant => is_Lambda applicant
  | _ => false
  end.

(** The trees of the grammar that the parser implements: an application is
    a chain of primary expressions, nested to the left, and only the last
    of the chain may be a lambda. *)
Fixpoint parser_shape (e : Expression) : bool :=
  match e with
  | Identifier _ => true
  | Lambda _ _ body => parser_shape body
  | Parentheses _ expr => parser_shape expr
  | Apply _ func applicant =>
      negb (ends_with_Lambda func) && negb (is_Apply applicant)
      && parser_shape func && parser_shape applicant
  end.

(** The kinds and spellings of the tokens of [to_str e]. *)
Fixpoint toks (e : Expression) : list (TokenType * string) :=
  match e with
  | Identifier i => [(IDENTIFIER, name i)]
  | Lambda _ param body => (IDENTIFIER, name param) :: (DOT, ".") :: toks body
  | Parentheses _ expr => (L_PAREN, "(") :: toks expr ++ [(R_PAREN, ")")]
  | Apply _ func applicant =>
      if is_Lambda func
      then (L_PAREN, "(") :: toks func ++ (R_PAREN, ")") :: toks applicant
      else toks func ++ toks applicant
  end.

(** The tokens from [pos] on have the kinds and spellings [ts]. *)
Definition spells (tokens : list Token) (pos : nat) (ts : list (TokenType * string))
  : Prop :=
  ∀ i x, ts !! i = Some x →
         ∃ t, tokens !! (pos + i) = Some t ∧ (type t, value t) = x.

Definition kind_at (tokens : list Token) (pos : nat) : option TokenType :=
  type <$> tokens !! pos.

(** Where an expression may end: at the end of the tokens or before a
    closing parenthesis. *)
Definition stop (tokens : list Token) (pos : nat) : Prop :=
  kind_at tokens pos = None ∨ kind_at tokens pos = Some R_PAREN.

(** What must follow the last primary expression of [e] for the parser to
    end it there: no dot after an identifier, a [stop] after a lambda. *)
Definition follow_primal (e : Expression) (tokens : list Token) (pos : nat) : Prop :=
  match e with
  | Identifier _ => kind_at tokens pos ≠ Some DOT
  | Lambda _ _ _ => stop tokens pos
  | _ => True
  end.

Definition last_follow (e : Expression) (tokens : list Token) (pos : nat) : Prop :=
  match e with
  | Apply _ _ applicant => follow_primal applicant tokens pos
  | _ => follow_primal e tokens pos
  end.

(** A name of one character, a letter or an underscore. *)
Definition one_letter (s : string) : bool :=
  match s with
  | String ch EmptyString => char_in ch ident_start_chars
  | _ => false
  end.

(** The kind and the spelling of a token, without its position. *)
Definition tok_abs (t : Token) : TokenType * string := (type t, value t).

(** ** More fuel never changes a result *)

Section le_run_facts.
Context {A B : Type}.

Lemma le_run_refl (r : run A) : le_run r r.
Proof. by right. Qed.

Lemma le_run_trans (r1 r2 r3 : run A) : le_run r1 r2 → le_run r2 r3 → le_run r1 r3.
Proof.
  intros [-> | ->]; [by left|].
  intros [-> | ->]; [by left|by right].
Qed.

Lemma le_run_bind (m m' : run A) (f f' : A → run B) :
  le_run m m' → (∀ a, le_run (f a) (f' a)) → le_run (m ≫= f) (m' ≫= f').
Proof.
  intros [-> | ->] Hf; [by left|].
  destruct m as [a| |]; [apply Hf|by right|by left].
Qed.

Lemma le_run_Done (r r' : run A) (a : A) : le_run r r' → r = Done a → r' = Done a.
Proof. intros [-> | ->]; congruence. Qed.

Lemma le_run_Raise (r r' : run A) (x : PyExc) :
  le_run r r' → r = Raise x → r' = Raise x.
Proof. intros [-> | ->]; congruence. Qed.
End le_run_facts.

(** Closes a goal [le_run body body'] where the two bodies differ only in the
    fuel given to their recursive calls, which the context relates. *)
Ltac le_run_bodies :=
  repeat first
    [ apply le_run_refl
    | assumption
    | match goal with H : _ |- _ => apply H end
    | apply le_run_bind; [ | intros ? ]
    | match goal with
      | |- le_run (match ?x with _ => _ end) _ => destruct x
      end ].

Lemma parse_fuel_S (n : nat) :
  (∀ tokens pos, le_run (parse_lambda n tokens pos) (parse_lambda (S n) tokens pos)) ∧
  (∀ tokens pos,
      le_run (parse_parentheses n tokens pos) (parse_parentheses (S n) tokens pos)) ∧
  (∀ tokens pos, le_run (parse_apply n tokens pos) (parse_apply (S n) tokens pos)) ∧
  (∀ tokens pos func next f,
      le_run (parse_apply_loop n tokens pos func next f)
             (parse_apply_loop (S n) tokens pos func next f)) ∧
  (∀ tokens pos,
      le_run (parse_primal_expr n tokens pos) (parse_primal_expr (S n) tokens pos)) ∧
  (∀ tokens pos, le_run (parse_expr n tokens pos) (parse_expr (S n) tokens pos)).
Proof.
  induction n as [|n (IHlam & IHpar & IHapp & IHloop & IHprim & IHexpr)].
  - repeat split; intros; by left.
  - repeat split; intros.
    + cbn [parse_lambda]. le_run_bodies.
    + cbn [parse_parentheses]. le_run_bodies.
    + cbn [parse_apply]. le_run_bodies.
    + cbn [parse_apply_loop]. le_run_bodies.
    + cbn [parse_primal_expr]. le_run_bodies.
    + cbn [parse_expr]. le_run_bodies.
Qed.

Lemma parse_primal_expr_fuel (n k : nat) tokens pos :
  le_run (parse_primal_expr n tokens pos) (parse_primal_expr (n + k) tokens pos).
Proof.
  induction k as [|k IH].
  - rewrite Nat.add_0_r. apply le_run_refl.
  - rewrite Nat.add_succ_r. eapply le_run_trans; [exact IH|].
    apply (parse_fuel_S (n + k)).
Qed.

Lemma parse_apply_fuel (n k : nat) tokens pos :
  le_run (parse_apply n tokens pos) (parse_apply (n + k) tokens pos).
Proof.
  induction k as [|k IH].
  - rewrite Nat.add_0_r. apply le_run_refl.
  - rewrite Nat.add_succ_r. eapply le_run_trans; [exact IH|].
    apply (parse_fuel_S (n + k)).
Qed.

Lemma parse_expr_fuel (n k : nat) tokens pos :
  le_run (parse_expr n tokens pos) (parse_expr (n + k) tokens pos).
Proof.
  induction k as [|k IH].
  - rewrite Nat.add_0_r. apply le_run_refl.
  - rewrite Nat.add_succ_r. eapply le_run_trans; [exact IH|].
    apply (parse_fuel_S (n + k)).
Qed.

Lemma parse_binding_fuel (n k : nat) tokens pos :
  le_run (parse_binding n tokens pos) (parse_binding (n + k) tokens pos).
Proof.
  unfold parse_binding. pose proof (parse_expr_fuel n k). le_run_bodies.
Qed.

Lemma parse_fuel (n k : nat) expr file :
  le_run (parse n expr file) (parse (n + k) expr file).
Proof.
  unfold parse. pose proof (parse_expr_fuel n k). le_run_bodies.
Qed.

Lemma eval_fuel_S (n : nat) : ∀ expr, le_run (eval n expr) (eval (S n) expr).
Proof.
  induction n as [|n IH]; intros expr; [by left|].
  cbn [eval]. destruct expr; le_run_bodies.
Qed.

Lemma eval_fuel (n k : nat) expr : le_run (eval n expr) (eval (n + k) expr).
Proof.
  induction k as [|k IH].
  - rewrite Nat.add_0_r. apply le_run_refl.
  - rewrite Nat.add_succ_r. eapply le_run_trans; [exact IH|]. apply eval_fuel_S.
Qed.

Lemma eval_source_fuel (n k : nat) src :
  le_run (eval_source n src) (eval_source (n + k) src).
Proof.
  unfold eval_source.
  apply le_run_bind; [apply parse_fuel|intros e; apply eval_fuel].
Qed.

Lemma parse_primal_expr_Done (n k : nat) tokens pos r :
  parse_primal_expr n tokens pos = Done r → parse_primal_expr (n + k) tokens pos = Done r.
Proof. apply le_run_Done, parse_primal_expr_fuel. Qed.

Lemma parse_apply_Done (n k : nat) tokens pos r :
  parse_apply n tokens pos = Done r → parse_apply (n + k) tokens pos = Done r.
Proof. apply le_run_Done, parse_apply_fuel. Qed.

Lemma parse_expr_Done (n k : nat) tokens pos r :
  parse_expr n tokens pos = Done r → parse_expr (n + k) tokens pos = Done r.
Proof. apply le_run_Done, parse_expr_fuel. Qed.

Lemma eval_Done (n k : nat) expr v :
  eval n expr = Done v → eval (n + k) expr = Done v.
Proof. apply le_run_Done, eval_fuel. Qed.

(** ** The lexer *)

(** On a line without identifiers of two or more characters the lexer does
    what its contract says. *)
Example tokenize_redex :
  tokenize "<stdin>" "(x.x) a"
  = Done [tok L_PAREN "(" 1 1; tok IDENTIFIER "x" 1 2; tok DOT "." 1 3;
          tok IDENTIFIER "x" 1 4; tok R_PAREN ")" 1 5; tok IDENTIFIER "a" 1 7].
Proof. reflexivity. Qed.

(** C2.  The source text "foo" is a single identifier, and [tokenize] makes
    three tokens of it, not one: the identifier "foo", and then one empty
    identifier for each of the two characters that the inner loop had
    already consumed, because [for c in code] visits them again. *)
Theorem tokenize_foo :
  tokenize "<stdin>" "foo"
  = Done [tok IDENTIFIER "foo" 1 1; tok IDENTIFIER "" 1 4; tok IDENTIFIER "" 1 5].
Proof. reflexivity. Qed.

(** An identifier of one character is lexed as one token holding it. *)
Lemma tokenize_one_letter (file : string) (c : ascii) :
  char_in c ident_start_chars = true →
  tokenize file (String c "") = Done [MkToken IDENTIFIER (String c "") (MkLoc file 1 1)].
Proof.
  intros H.
  destruct c as [[] [] [] [] [] [] [] []];
    first [reflexivity | vm_compute in H; discriminate H].
Qed.

(** The same loop raises on an identifier with a digit. *)
Example tokenize_x1 :
  tokenize "<stdin>" "x1" = Raise (ValueError "Unexpected character '1' at <stdin>:1:3").
Proof. reflexivity. Qed.

(** After a newline the inner loop reads [code[col]] with the column of the
    current line as an index into the whole text. *)
Example tokenize_second_line :
  tokenize "<stdin>" (String "(" (String "a" (String ")" (String "010" "c d"))))
  = Done [tok L_PAREN "(" 1 1; tok IDENTIFIER "a" 1 2; tok R_PAREN ")" 1 3;
          tok IDENTIFIER "c " 2 1; tok IDENTIFIER "" 2 4].
Proof. reflexivity. Qed.

(** ** The parser *)

Example parse_lambda_text (k : nat) :
  parse (40 + k) "x.x" "<stdin>"
  = Done (Lambda (stdin_loc 1 1) (ident_at "x" 1 1) (Identifier (ident_at "x" 1 3))).
Proof. eapply le_run_Done; [apply parse_fuel|]. vm_compute. reflexivity. Qed.

(** Application is left-associative. *)
Example parse_left_assoc (k : nat) :
  parse (40 + k) "f a b" "<stdin>"
  = Done (Apply (stdin_loc 1 1)
            (Apply (stdin_loc 1 1) (Identifier (ident_at "f" 1 1))
               (Identifier (ident_at "a" 1 3)))
            (Identifier (ident_at "b" 1 5))).
Proof. eapply le_run_Done; [apply parse_fuel|]. vm_compute. reflexivity. Qed.

(** C3.  [parse] makes of the text "ab" the application of the identifier
    "ab" to an identifier with the empty name; its rendering is "ab " and
    parses to the application of "ab" to an identifier named by one space:
    the two trees differ in a name, whatever the parentheses.  The defect is
    the lexer's: it visits again the characters of an identifier of two or
    more characters. *)
Theorem reprint_ab_differs (k : nat) :
  let e := Apply (stdin_loc 1 1) (Identifier (ident_at "ab" 1 1))
             (Identifier (ident_at "" 1 3)) in
  let e' := Apply (stdin_loc 1 1) (Identifier (ident_at "ab" 1 1))
              (Identifier (ident_at " " 1 3)) in
  parse (40 + k) "ab" "<stdin>" = Done e ∧
  to_str e = "ab " ∧
  parse (40 + k) (to_str e) "<stdin>" = Done e' ∧
  shape e ≠ shape e'.
Proof.
  intros e e'. split; [|split; [|split]].
  - eapply le_run_Done; [apply parse_fuel|]. vm_compute. reflexivity.
  - reflexivity.
  - eapply le_run_Done; [apply parse_fuel|]. vm_compute. reflexivity.
  - discriminate.
Qed.

(** The amended C6 at work on a one-token text. *)
Example parse_apply_one_token :
  let tokens := [tok IDENTIFIER "x" 1 1] in
  let e := MkUntypedError "Expected IDENTIFIER but got EOF" "<stdin>" 1 1 in
  parse_primal_expr 2 tokens 0 = Done (Ok (Identifier (ident_at "x" 1 1), 1)) ∧
  parse_primal_expr 2 tokens 1 = Done (Err e) ∧
  parse_apply 4 tokens 0 = Done (Err e).
Proof. intros tokens e. split; [|split]; vm_compute; reflexivity. Qed.

(** C6, as the claim states it, fails: on the single token [x] a primary
    expression parses at position 0, none parses at position 1, and
    [parse_apply] returns the failure of the missing applicant whatever the
    fuel, not the identifier. *)
Lemma parse_apply_single_primal_is_failure :
  let tokens := [tok IDENTIFIER "x" 1 1] in
  let x := Identifier (ident_at "x" 1 1) in
  parse_primal_expr 2 tokens 0 = Done (Ok (x, 1)) ∧
  (∃ e, parse_primal_expr 2 tokens 1 = Done (Err e)) ∧
  ∀ fuel, parse_apply fuel tokens 0 ≠ Done (Ok (x, 1)).
Proof.
  intros tokens x. subst tokens x. split; [|split].
  - vm_compute. reflexivity.
  - eexists. vm_compute. reflexivity.
  - intros fuel H.
    apply (parse_apply_Done fuel 4) in H.
    assert (H4 : parse_apply (4 + fuel) [tok IDENTIFIER "x" 1 1] 0
                 = Done (Err (MkUntypedError "Expected IDENTIFIER but got EOF"
                                "<stdin>" 1 1))).
    { apply parse_apply_Done. vm_compute. reflexivity. }
    rewrite Nat.add_comm in H. rewrite H in H4. discriminate H4.
Qed.

(** C6, amended.  When a primary expression parses at [pos] and no applicant
    parses at the position after it, [parse_apply] fails with the error of
    the missing applicant (its flag [f] is still set), and it is [parse_expr]
    that falls back to [parse_primal_expr] and returns the single primary
    expression, unchanged, with its next position. *)
Theorem parse_expr_single_primal (fuel : nat) (tokens : list Token) (pos : nat)
    (func : Expression) (next : nat) (e : UntypedError) :
  parse_primal_expr fuel tokens pos = Done (Ok (func, next)) →
  parse_primal_expr fuel tokens next = Done (Err e) →
  ∀ k,
    parse_apply (S (S fuel) + k) tokens pos = Done (Err e) ∧
    parse_expr (S (S (S fuel)) + k) tokens pos = Done (Ok (func, next)).
Proof.
  intros Hfunc Happ k.
  assert (Hfunc1 : parse_primal_expr (S fuel) tokens pos = Done (Ok (func, next))).
  { replace (S fuel) with (fuel + 1) by lia. by apply parse_primal_expr_Done. }
  assert (Hfunc2 : parse_primal_expr (S (S fuel)) tokens pos = Done (Ok (func, next))).
  { replace (S (S fuel)) with (fuel + 2) by lia. by apply parse_primal_expr_Done. }
  assert (Happly : parse_apply (S (S fuel)) tokens pos = Done (Err e)).
  { cbn [parse_apply]. rewrite Hfunc1. cbn [mbind run_mbind run_bind parse_apply_loop].
    rewrite Happ. reflexivity. }
  split.
  - by apply parse_apply_Done.
  - apply parse_expr_Done. cbn [parse_expr]. rewrite Happly.
    cbn [mbind run_mbind run_bind]. rewrite Hfunc2. reflexivity.
Qed.

Lemma parse_expr_single_primal_witness :
  parse_apply (S (S 2) + 0) [tok IDENTIFIER "x" 1 1] 0
  = Done (Err (MkUntypedError "Expected IDENTIFIER but got EOF" "<stdin>" 1 1)) ∧
  parse_expr (S (S (S 2)) + 0) [tok IDENTIFIER "x" 1 1] 0
  = Done (Ok (Identifier (ident_at "x" 1 1), 1)).
Proof.
  apply (parse_expr_single_primal 2 [tok IDENTIFIER "x" 1 1] 0
           (Identifier (ident_at "x" 1 1)) 1
           (MkUntypedError "Expected IDENTIFIER but got EOF" "<stdin>" 1 1)).
  - vm_compute. reflexivity.
  - vm_compute. reflexivity.
Defined.

(** [parse_binding] asks for the identifier at [pos], where it has just
    found the keyword, so it never succeeds. *)
Lemma parse_binding_never_Ok (fuel : nat) (tokens : list Token) (pos : nat)
    (r : Binding * nat) :
  parse_binding fuel tokens pos ≠ Done (Ok r).
Proof.
  unfold parse_binding, expect.
  destruct (drop pos tokens) as [|t rest].
  - destruct (py_getitem tokens (Z.of_nat pos - 1)); discriminate.
  - destruct (py_getitem tokens (Z.of_nat pos)) as [cur| |]; cbn; try discriminate.
    destruct (decide (type cur = LET)) as [Hlet|Hlet].
    + rewrite (bool_decide_eq_true_2 _ Hlet).
      rewrite (bool_decide_eq_false_2 (type cur = IDENTIFIER)) by (rewrite Hlet; discriminate).
      cbn. discriminate.
    + rewrite (bool_decide_eq_false_2 _ Hlet). cbn. discriminate.
Qed.

(** C7.  On the tokens of a well-formed binding, [let], [x], [=], [y],
    [parse_binding] returns the failure "Expected IDENTIFIER but got LET",
    positioned at the keyword, for every fuel; and no token list makes it
    return a [Binding]. *)
Theorem parse_binding_fails_on_binding :
  (∀ fuel,
     parse_binding fuel
       [tok LET "let" 1 1; tok IDENTIFIER "x" 1 5; tok EQUAL "=" 1 7;
        tok IDENTIFIER "y" 1 9] 0
     = Done (Err (MkUntypedError "Expected IDENTIFIER but got LET" "<stdin>" 1 1))) ∧
  (∀ fuel tokens pos r, parse_binding fuel tokens pos ≠ Done (Ok r)).
Proof.
  split.
  - intros fuel. reflexivity.
  - intros. apply parse_binding_never_Ok.
Qed.

(** C8.  The empty text has no token; the first [expect] finds the end of
    the input at position 0 and reads the position of [tokens[-1]] of the
    empty list: [parse] leaves with [IndexError], not with a diagnostic. *)
Theorem parse_empty_IndexError (k : nat) (file : string) :
  parse (4 + k) "" file = Raise IndexError.
Proof. eapply le_run_Raise; [apply parse_fuel|]. reflexivity. Qed.

(** A text of blanks has no token either. *)
Example parse_blank_IndexError (k : nat) :
  parse (4 + k) "  " "<stdin>" = Raise IndexError.
Proof. eapply le_run_Raise; [apply parse_fuel|]. reflexivity. Qed.

(** A character that is no token is reported by the lexer, as a
    [ValueError] whose text carries the file, the line and the column. *)
Example parse_unexpected_character (k : nat) :
  parse k "a?" "<stdin>" = Raise (ValueError "Unexpected character '?' at <stdin>:1:2").
Proof. reflexivity. Qed.

(** C9, as the claim states it, fails: whatever the fuel, the diagnostic of
    "x." is none of the "Expected <token kind> but got ..." messages. *)
Lemma parse_dangling_dot_no_expected_kind :
  ¬ ∃ (fuel : nat) (kind : TokenType) (rest : string),
      parse fuel "x." "<stdin>"
      = Raise (SyntaxError ("Expected " ++ type_name kind ++ " but got " ++ rest)%string).
Proof.
  intros (fuel & kind & rest & H).
  apply (le_run_Raise _ _ _ (parse_fuel fuel 10 "x." "<stdin>")) in H.
  assert (H10 : parse (10 + fuel) "x." "<stdin>"
                = Raise (SyntaxError
                           "Expected EOF but got DOT at line 1 column 2 in <stdin>")).
  { eapply le_run_Raise; [apply parse_fuel|]. vm_compute. reflexivity. }
  rewrite Nat.add_comm in H. rewrite H in H10.
  destruct kind; cbn in H10; discriminate H10.
Qed.

(** C9, amended.  The lambda alternative fails on the missing body and is
    dropped; the identifier [x] parses alone and the dot is left over: the
    diagnostic is "Expected EOF but got DOT", at the position of the dot
    itself, line 1 column 2. *)
Theorem parse_dangling_dot (k : nat) :
  tokenize "<stdin>" "x." = Done [tok IDENTIFIER "x" 1 1; tok DOT "." 1 2] ∧
  parse (10 + k) "x." "<stdin>"
  = Raise (SyntaxError "Expected EOF but got DOT at line 1 column 2 in <stdin>").
Proof.
  split; [reflexivity|].
  eapply le_run_Raise; [apply parse_fuel|]. vm_compute. reflexivity.
Qed.

(** ** The substitution engine and the normalizer *)

(** [apply] calls [unique_ident] without a dictionary, and on a lambda and
    an empty dictionary [unique_ident] records the parameter and returns the
    lambda as it is: its body is never visited, so no bound name of the body
    is ever renamed on this path. *)
Lemma unique_ident_Lambda_empty (l : Loc) (param : Ident) (body : Expression) :
  unique_ident (Lambda l param body) ∅ = Lambda l param body.
Proof. cbn [unique_ident]. by rewrite lookup_empty. Qed.

(** Hence [apply] is the plain substitution of [apply_walk], followed by the
    removal of decorations. *)
Lemma apply_Lambda (l : Loc) (param : Ident) (body applicant : Expression) :
  apply (Lambda l param body) applicant
  = Done (ununique_ident (apply_walk param applicant body)).
Proof. unfold apply. by rewrite unique_ident_Lambda_empty. Qed.

(** Renaming does happen below a name that the dictionary already holds. *)
Example unique_ident_known :
  unique_ident (Lambda (stdin_loc 1 1) (ident_at "x" 1 1) (Identifier (ident_at "x" 1 3)))
    {[ "x" := 0 ]}
  = Lambda (stdin_loc 1 1) (ident_at "x$1" 1 1) (Identifier (ident_at "x$1" 1 1)).
Proof. vm_compute. reflexivity. Qed.

(** C1.  The text "(x.(y.x)) y" evaluates to the lambda [y.y]: the free [y]
    of the argument is substituted below the binder [y] of the body and is
    captured by it.  The capture is made by [apply] itself, which returns
    [(y.y)] for the function [x.(y.x)] and the argument [y]. *)
Theorem eval_captures_free_variable (k : nat) :
  let captured := Lambda (stdin_loc 1 5) (ident_at "y" 1 5) (Identifier (ident_at "y" 1 11)) in
  eval_source (40 + k) "(x.(y.x)) y" = Done captured ∧
  to_str captured = "y.y" ∧
  apply (Lambda (stdin_loc 1 2) (ident_at "x" 1 2)
           (Parentheses (stdin_loc 1 4)
              (Lambda (stdin_loc 1 5) (ident_at "y" 1 5) (Identifier (ident_at "x" 1 7)))))
        (Identifier (ident_at "y" 1 11))
  = Done (Parentheses (stdin_loc 1 5) captured).
Proof.
  intros captured. split; [|split].
  - eapply le_run_Done; [apply eval_source_fuel|]. vm_compute. reflexivity.
  - reflexivity.
  - vm_compute. reflexivity.
Qed.

(** C4.  The two closed redexes evaluate to the identifier [a]. *)
Theorem eval_closed_redexes (k : nat) :
  eval_source (40 + k) "(x.x) a" = Done (Identifier (ident_at "a" 1 7)) ∧
  eval_source (40 + k) "(x.y.x) a b" = Done (Identifier (ident_at "a" 1 9)).
Proof.
  split.
  - eapply le_run_Done; [apply eval_source_fuel|]. vm_compute. reflexivity.
  - eapply le_run_Done; [apply eval_source_fuel|]. vm_compute. reflexivity.
Qed.

(** C5.  The text "f a" evaluates to the application of [f] to [a]; and
    whenever the function part of an application evaluates to a node that is
    not a lambda, [eval] returns the application of the two evaluated
    operands, at the position of the application, and [apply] is not
    called. *)
Theorem eval_stuck_apply :
  (∀ k, eval_source (40 + k) "f a"
        = Done (Apply (stdin_loc 1 1) (Identifier (ident_at "f" 1 1))
                  (Identifier (ident_at "a" 1 3)))) ∧
  (∀ fuel l func applicant func' applicant',
     eval fuel func = Done func' →
     eval fuel applicant = Done applicant' →
     is_Lambda func' = false →
     ∀ k, eval (S fuel + k) (Apply l func applicant) = Done (Apply l func' applicant')).
Proof.
  split.
  - intros k. eapply le_run_Done; [apply eval_source_fuel|]. vm_compute. reflexivity.
  - intros fuel l func applicant func' applicant' Hfunc Happ Hstuck k.
    apply eval_Done. cbn [eval]. rewrite Hfunc. cbn [mbind run_mbind run_bind].
    rewrite Happ. cbn [mbind run_mbind run_bind]. by rewrite Hstuck.
Qed.

Lemma eval_stuck_apply_witness :
  eval (S 1 + 0)
    (Apply (stdin_loc 1 1) (Identifier (ident_at "f" 1 1)) (Identifier (ident_at "a" 1 3)))
  = Done (Apply (stdin_loc 1 1) (Identifier (ident_at "f" 1 1))
            (Identifier (ident_at "a" 1 3))).
Proof.
  apply (proj2 eval_stuck_apply 1 (stdin_loc 1 1)
           (Identifier (ident_at "f" 1 1)) (Identifier (ident_at "a" 1 3))
           (Identifier (ident_at "f" 1 1)) (Identifier (ident_at "a" 1 3))).
  - reflexivity.
  - reflexivity.
  - reflexivity.
Defined.

(** C10.  A value that [eval] returns is a fixed point of [eval]: with the
    fuel that produced it, and with any more, [eval] returns it again, the
    same node for node, positions included. *)
Theorem eval_idempotent (fuel : nat) (e v : Expression) :
  eval fuel e = Done v → ∀ k, eval (fuel + k) v = Done v.
Proof.
  intros H k. apply eval_Done. revert e v H.
  induction fuel as [|fuel IH]; intros e v H; [discriminate|].
  assert (Hmore : ∀ e', eval fuel e' = Done v → eval (S fuel) v = Done v).
  { intros e' He'. apply IH in He'.
    eapply le_run_Done; [apply eval_fuel_S|exact He']. }
  cbn [eval] in H. destruct e as [i|l param body|l e|l func applicant].
  - by injection H as <-.
  - by injection H as <-.
  - by apply (Hmore e).
  - destruct (eval fuel func) as [func'| |] eqn:Hfunc; try discriminate.
    destruct (eval fuel applicant) as [applicant'| |] eqn:Happ; try discriminate.
    cbn [mbind run_mbind run_bind] in H.
    destruct (is_Lambda func') eqn:Hlam.
    + destruct (apply func' applicant') as [r| |]; try discriminate.
      by apply (Hmore r).
    + injection H as <-. cbn [eval].
      rewrite (IH _ _ Hfunc), (IH _ _ Happ). cbn [mbind run_mbind run_bind].
      by rewrite Hlam.
Qed.

Lemma eval_idempotent_witness :
  eval (3 + 0) (Identifier (ident_at "a" 1 7)) = Done (Identifier (ident_at "a" 1 7)).
Proof.
  apply (eval_idempotent 3
           (Apply (stdin_loc 1 1)
              (Parentheses (stdin_loc 1 1)
                 (Lambda (stdin_loc 1 2) (ident_at "x" 1 2) (Identifier (ident_at "x" 1 4))))
              (Identifier (ident_at "a" 1 7)))
           (Identifier (ident_at "a" 1 7))).
  vm_compute. reflexivity.
Defined.

(** ** More on the substitution engine *)

Lemma is_Lambda_unique_ident (e : Expression) (known : gmap string nat) :
  is_Lambda (unique_ident e known) = is_Lambda e.
Proof. destruct e; cbn [unique_ident]; [done| |done|done]. by destruct (known !! name param). Qed.

(** X14.  Called the way [apply] calls it, without names already seen,
    [unique_ident] renames nothing in any expression: the result prints the
    same and has the same shape. *)
Theorem unique_ident_empty_renames_nothing (e : Expression) :
  to_str (unique_ident e ∅) = to_str e ∧ shape (unique_ident e ∅) = shape e.
Proof.
  induction e as [i|l param body _|l e [IHs IHt]|l func [IHfs IHft] applicant [IHas IHat]];
    cbn [unique_ident].
  - done.
  - by rewrite lookup_empty.
  - cbn [to_str shape]. by rewrite IHs, IHt.
  - cbn [to_str shape]. by rewrite is_Lambda_unique_ident, IHfs, IHas, IHft, IHat.
Qed.

Lemma has_dollar_split_dollar_head (s : string) : has_dollar (split_dollar_head s) = false.
Proof.
  unfold has_dollar. induction s as [|c s IH]; [done|].
  cbn [split_dollar_head]. destruct (Ascii.eqb c "$") eqn:Hc; [done|].
  cbn [list_ascii_of_string existsb]. rewrite IH, Ascii.eqb_sym, Hc. done.
Qed.

Lemma split_dollar_head_undecorated (s : string) :
  has_dollar s = false → split_dollar_head s = s.
Proof.
  unfold has_dollar. induction s as [|c s IH]; [done|].
  cbn [list_ascii_of_string existsb split_dollar_head].
  rewrite (Ascii.eqb_sym "$" c). destruct (Ascii.eqb c "$"); [done|].
  cbn [orb]. intros H. by rewrite IH.
Qed.

Lemma is_Lambda_ununique_ident (e : Expression) :
  is_Lambda (ununique_ident e) = is_Lambda e.
Proof. by destruct e. Qed.

Lemma ununique_ident_undecorated (e : Expression) :
  all_names undecorated (ununique_ident e) = true.
Proof.
  unfold undecorated.
  induction e as [i|l param body IH|l e IH|l func IHf applicant IHa];
    cbn [ununique_ident all_names ununique_name name].
  - by rewrite has_dollar_split_dollar_head.
  - by rewrite has_dollar_split_dollar_head, IH.
  - done.
  - by rewrite IHf, IHa.
Qed.

(** X15.  On an expression none of whose names holds a dollar sign,
    [ununique_ident] changes no name: the result prints the same and has the
    same shape. *)
Theorem ununique_ident_undecorated_same (e : Expression) :
  all_names undecorated e = true →
  to_str (ununique_ident e) = to_str e ∧ shape (ununique_ident e) = shape e.
Proof.
  unfold undecorated.
  induction e as [i|l param body IH|l e IH|l func IHf applicant IHa];
    cbn [ununique_ident all_names ununique_name name to_str shape]; intros H.
  - apply negb_true_iff in H. by rewrite split_dollar_head_undecorated.
  - apply andb_true_iff in H as [Hp Hb]. apply negb_true_iff in Hp.
    destruct (IH Hb) as [-> ->]. by rewrite split_dollar_head_undecorated.
  - by destruct (IH H) as [-> ->].
  - apply andb_true_iff in H as [Hf Ha].
    destruct (IHf Hf) as [-> ->], (IHa Ha) as [-> ->].
    by rewrite is_Lambda_ununique_ident.
Qed.

Lemma ununique_ident_undecorated_same_witness :
  to_str (ununique_ident (Identifier (ident_at "a" 1 1))) = to_str (Identifier (ident_at "a" 1 1)) ∧
  shape (ununique_ident (Identifier (ident_at "a" 1 1))) = shape (Identifier (ident_at "a" 1 1)).
Proof. apply (ununique_ident_undecorated_same (Identifier (ident_at "a" 1 1))). reflexivity. Defined.

(** X16.  [apply] needs a lambda: on any other node it raises
    [AttributeError], whatever the argument. *)
Theorem apply_not_Lambda (func applicant : Expression) :
  is_Lambda func = false → apply func applicant = Raise AttributeError.
Proof. by destruct func. Qed.

Lemma apply_not_Lambda_witness :
  apply (Identifier (ident_at "f" 1 1)) (Identifier (ident_at "a" 1 3)) = Raise AttributeError.
Proof. apply apply_not_Lambda. reflexivity. Defined.

(** X17.  Whatever [apply] returns holds no decorated name: every name of the
    result, of the function body and of the argument alike, is cut at its
    first dollar sign. *)
Theorem apply_result_undecorated (func applicant r : Expression) :
  apply func applicant = Done r → all_names undecorated r = true.
Proof.
  destruct func as [i|l param body|l e|l f a]; try discriminate.
  rewrite apply_Lambda. intros [= <-]. apply ununique_ident_undecorated.
Qed.

Lemma apply_result_undecorated_witness :
  all_names undecorated (Identifier (ident_at "a" 1 7)) = true.
Proof.
  apply (apply_result_undecorated
           (Lambda (stdin_loc 1 2) (ident_at "x" 1 2) (Identifier (ident_at "x" 1 4)))
           (Identifier (ident_at "a$1" 1 7))).
  vm_compute. reflexivity.
Defined.


(** X18.  After [alpha_convert] to a different name, the old name does not
    occur free any more. *)
Theorem alpha_convert_removes_old (e : Expression) (old new : Ident) :
  name old ≠ name new → free_in (name old) (alpha_convert e old new) = false.
Proof.
  intros Hne.
  induction e as [i|l param body IH|l e IH|l f IHf a IHa]; cbn [alpha_convert].
  - unfold ident_eq. destruct (String.eqb (name i) (name old)) eqn:Hi; cbn [free_in].
    + apply String.eqb_neq. congruence.
    + exact Hi.
  - unfold ident_eq. destruct (String.eqb (name param) (name old)) eqn:Hp; cbn [free_in].
    + by rewrite Hp.
    + by rewrite IH, andb_false_r.
  - exact IH.
  - cbn [free_in]. by rewrite IHf, IHa.
Qed.

Lemma alpha_convert_removes_old_witness :
  free_in (name (ident_at "x" 1 1))
    (alpha_convert (Identifier (ident_at "x" 1 3)) (ident_at "x" 1 1) (ident_at "x$1" 1 1))
  = false.
Proof. apply alpha_convert_removes_old. discriminate. Defined.





(** X21.  The substitution of [apply] removes the parameter: when it does not
    occur free in the argument, it does not occur free in the result. *)
Theorem apply_walk_removes_param (param : Ident) (applicant body : Expression) :
  free_in (name param) applicant = false →
  free_in (name param) (apply_walk param applicant body) = false.
Proof.
  intros Happ.
  induction body as [i|l p body IH|l e IH|l f IHf a IHa]; cbn [apply_walk].
  - unfold ident_eq. by destruct (String.eqb (name i) (name param)) eqn:Hi.
  - unfold ident_eq. rewrite String.eqb_sym.
    destruct (String.eqb (name p) (name param)) eqn:Hp; cbn [free_in].
    + by rewrite Hp.
    + by rewrite IH, andb_false_r.
  - exact IH.
  - cbn [free_in]. by rewrite IHf, IHa.
Qed.

Lemma apply_walk_removes_param_witness :
  free_in (name (ident_at "x" 1 2))
    (apply_walk (ident_at "x" 1 2) (Identifier (ident_at "a" 1 7))
       (Identifier (ident_at "x" 1 4)))
  = false.
Proof. apply apply_walk_removes_param. reflexivity. Defined.

(** ** More on the normalizer *)


Lemma eval_is_value (fuel : nat) (e v : Expression) :
  eval fuel e = Done v → is_value v = true.
Proof.
  revert e v. induction fuel as [|fuel IH]; intros e v H; [discriminate|].
  cbn [eval] in H. destruct e as [i|l param body|l e|l func applicant].
  - by injection H as <-.
  - by injection H as <-.
  - by apply (IH e).
  - destruct (eval fuel func) as [func'| |] eqn:Hfunc; try discriminate.
    destruct (eval fuel applicant) as [applicant'| |] eqn:Happ; try discriminate.
    cbn [mbind run_mbind run_bind] in H.
    destruct (is_Lambda func') eqn:Hlam.
    + destruct (apply func' applicant') as [r| |]; try discriminate.
      by apply (IH r).
    + injection H as <-. cbn [is_value].
      by rewrite Hlam, (IH _ _ Hfunc), (IH _ _ Happ).
Qed.

(** X24.  What [eval] returns is a value: never a [Parentheses] node, and an
    application only of values whose function part is not a lambda. *)
Theorem eval_returns_value (fuel : nat) (e v : Expression) :
  eval fuel e = Done v → is_value v = true.
Proof. intros. eapply eval_is_value; eauto. Qed.

Lemma eval_returns_value_witness :
  is_value (Identifier (ident_at "a" 1 7)) = true.
Proof.
  apply (eval_returns_value 3
           (Apply (stdin_loc 1 1)
              (Parentheses (stdin_loc 1 1)
                 (Lambda (stdin_loc 1 2) (ident_at "x" 1 2) (Identifier (ident_at "x" 1 4))))
              (Identifier (ident_at "a" 1 7)))).
  vm_compute. reflexivity.
Defined.

(** X25.  The values are exactly the fixed points of [eval]: a value evaluates
    to itself, and an expression that evaluates to itself is a value. *)
Theorem eval_fixed_points (v : Expression) :
  is_value v = true ↔ ∃ fuel, ∀ k, eval (fuel + k) v = Done v.
Proof.
  split.
  - induction v as [i|l param body _|l e _|l func IHf applicant IHa]; cbn [is_value]; intros H.
    + by exists 1.
    + by exists 1.
    + discriminate.
    + apply andb_true_iff in H as [H Ha]. apply andb_true_iff in H as [Hlam Hf].
      apply negb_true_iff in Hlam.
      destruct (IHf Hf) as [n1 H1], (IHa Ha) as [n2 H2].
      exists (S (n1 + n2)). intros k. cbn [Nat.add eval].
      replace (n1 + n2 + k) with (n1 + (n2 + k)) at 1 by lia. rewrite H1.
      cbn [mbind run_mbind run_bind].
      replace (n1 + n2 + k) with (n2 + (n1 + k)) by lia. rewrite H2.
      cbn [mbind run_mbind run_bind]. by rewrite Hlam.
  - intros [fuel H]. apply (eval_is_value (fuel + 0) v). apply H.
Qed.

(** ** More on the parser *)

Lemma bind_Done_inv {A B : Type} (m : run A) (f : A → run B) (b : B) :
  m ≫= f = Done b → ∃ a, m = Done a ∧ f a = Done b.
Proof. destruct m as [a| |]; [|discriminate..]. intros H. by exists a. Qed.

(** Takes apart a hypothesis [H : body = Done r], where [body] is a chain of
    binds and matches: every bind must have returned, every match is
    split. *)
Ltac run_inv H :=
  repeat first
    [ discriminate H
    | let a := fresh "a" in
      let Ha := fresh "Ha" in
      apply bind_Done_inv in H as (a & Ha & H); cbn beta in H
    | match type of H with
      | (match ?x with _ => _ end) = _ => destruct x eqn:?
      end ].

Lemma py_getitem_nat {A : Type} (l : list A) (i : nat) :
  py_getitem l (Z.of_nat i)
  = match l !! i with Some a => Done a | None => Raise IndexError end.
Proof.
  unfold py_getitem.
  destruct (Z.ltb_spec (Z.of_nat i) 0) as [?|_]; [lia|].
  destruct (Z.leb_spec 0 (Z.of_nat i)) as [_|?]; [|lia].
  rewrite Nat2Z.id.
  destruct (Z.ltb_spec (Z.of_nat i) (Z.of_nat (length l))) as [Hlt|Hge]; cbn [andb].
  - done.
  - rewrite lookup_ge_None_2; [done|lia].
Qed.

Lemma expect_Ok_spec (self : TokenType) (tokens : list Token) (pos : nat) (t : Token) :
  expect self tokens pos = Done (Ok t) ↔ tokens !! pos = Some t ∧ type t = self.
Proof.
  unfold expect. rewrite py_getitem_nat.
  destruct (drop pos tokens) as [|t0 rest] eqn:Hdrop.
  - apply drop_nil_inv in Hdrop.
    rewrite (lookup_ge_None_2 tokens pos) by done. split.
    + intros H. run_inv H.
    + by intros [? _].
  - assert (Hpos : tokens !! pos = Some t0).
    { rewrite <- (Nat.add_0_r pos), <- lookup_drop, Hdrop. done. }
    rewrite Hpos. cbn [mbind run_mbind run_bind]. case_bool_decide as Htype; cbn [negb].
    + split.
      * by intros [= <-].
      * by intros [[= <-] _].
    + split; [discriminate|]. intros [[= <-] ?]. done.
Qed.

(** X6.  [expect] returns a token exactly when there is a token at [pos] and
    it has the expected kind; the token returned is that one. *)
Theorem expect_Ok (self : TokenType) (tokens : list Token) (pos : nat) (t : Token) :
  expect self tokens pos = Done (Ok t) ↔ tokens !! pos = Some t ∧ type t = self.
Proof. intros. eapply expect_Ok_spec; eauto. Qed.

Lemma expect_Ok_lt (self : TokenType) (tokens : list Token) (pos : nat) (t : Token) :
  expect self tokens pos = Done (Ok t) → pos < length tokens.
Proof. intros H. apply expect_Ok_spec in H as [H _]. by apply lookup_lt_Some in H. Qed.

Lemma parse_progress_all (fuel : nat) :
  (∀ tokens pos e next,
     parse_lambda fuel tokens pos = Done (Ok (e, next)) → pos < next ≤ length tokens) ∧
  (∀ tokens pos e next,
     parse_parentheses fuel tokens pos = Done (Ok (e, next)) → pos < next ≤ length tokens) ∧
  (∀ tokens pos e next,
     parse_apply fuel tokens pos = Done (Ok (e, next)) → pos < next ≤ length tokens) ∧
  (∀ tokens pos func next f e next',
     parse_apply_loop fuel tokens pos func next f = Done (Ok (e, next')) →
     next ≤ next' ∧ (next ≤ length tokens → next' ≤ length tokens)) ∧
  (∀ tokens pos e next,
     parse_primal_expr fuel tokens pos = Done (Ok (e, next)) → pos < next ≤ length tokens) ∧
  (∀ tokens pos e next,
     parse_expr fuel tokens pos = Done (Ok (e, next)) → pos < next ≤ length tokens).
Proof.
  induction fuel as [|fuel (IHlam & IHpar & IHapp & IHloop & IHprim & IHexpr)].
  { repeat split; discriminate. }
  split; [|split; [|split; [|split; [|split]]]].
  - intros tokens pos e next H. cbn [parse_lambda] in H. run_inv H.
    injection H as <- <-. apply IHexpr in Ha1. lia.
  - intros tokens pos e next H. cbn [parse_parentheses] in H. run_inv H.
    injection H as <- <-. apply IHexpr in Ha0. apply expect_Ok_lt in Ha1. lia.
  - intros tokens pos e next H. cbn [parse_apply] in H. run_inv H.
    apply IHprim in Ha. apply IHloop in H. lia.
  - intros tokens pos func next f e next' H. cbn [parse_apply_loop] in H. run_inv H.
    + apply IHprim in Ha. apply IHloop in H. lia.
    + injection H as <- <-. lia.
  - intros tokens pos e next H. cbn [parse_primal_expr] in H. run_inv H.
    + injection H as <- <-. by apply IHlam in Ha.
    + injection H as <- <-. by apply IHpar in Ha0.
    + injection H as <- <-. apply expect_Ok_lt in Ha1. lia.
  - intros tokens pos e next H. cbn [parse_expr] in H. run_inv H.
    + injection H as <- <-. by apply IHapp in Ha.
    + injection H as <- <-. by apply IHprim in Ha0.
Qed.

(** X8.  A parse function that succeeds has consumed at least one token
    and has not read past the end: [pos < next <= len(tokens)]. *)
Theorem parse_progress (fuel : nat) (tokens : list Token) (pos : nat)
    (e : Expression) (next : nat) :
  parse_lambda fuel tokens pos = Done (Ok (e, next)) ∨
  parse_parentheses fuel tokens pos = Done (Ok (e, next)) ∨
  parse_apply fuel tokens pos = Done (Ok (e, next)) ∨
  parse_primal_expr fuel tokens pos = Done (Ok (e, next)) ∨
  parse_expr fuel tokens pos = Done (Ok (e, next)) →
  pos < next ≤ length tokens.
Proof.
  destruct (parse_progress_all fuel) as (Hlam & Hpar & Happ & _ & Hprim & Hexpr).
  intros [H|[H|[H|[H|H]]]]; eauto.
Qed.

Lemma parse_progress_witness : 0 < 1 ≤ length [tok IDENTIFIER "x" 1 1].
Proof.
  apply (parse_progress 8 [tok IDENTIFIER "x" 1 1] 0 (Identifier (ident_at "x" 1 1)) 1).
  right. right. right. right. vm_compute. reflexivity.
Defined.

Lemma py_getitem_lt {A : Type} (l : list A) (i : nat) :
  i < length l → ∃ a, py_getitem l (Z.of_nat i) = Done a.
Proof.
  intros Hi. rewrite py_getitem_nat.
  destruct (lookup_lt_is_Some_2 l i Hi) as [a ->]. by exists a.
Qed.

Lemma expect_Done (self : TokenType) (tokens : list Token) (pos : nat) :
  tokens ≠ [] → pos ≤ length tokens → ∃ r, expect self tokens pos = Done r.
Proof.
  intros Hne Hpos. unfold expect.
  destruct (drop pos tokens) as [|t0 rest] eqn:Hdrop.
  - apply drop_nil_inv in Hdrop.
    assert (Hlen : 0 < length tokens) by (destruct tokens; [done|cbn; lia]).
    replace (Z.of_nat pos - 1)%Z with (Z.of_nat (pos - 1)) by lia.
    destruct (py_getitem_lt tokens (pos - 1)) as [prev ->]; [lia|].
    cbn [mbind run_mbind run_bind]. eauto.
  - assert (Hlt : pos < length tokens).
    { destruct (Nat.lt_ge_cases pos (length tokens)) as [?|Hge]; [done|].
      by rewrite (drop_ge _ _ Hge) in Hdrop. }
    destruct (py_getitem_lt tokens pos Hlt) as [cur ->].
    cbn [mbind run_mbind run_bind]. destruct (negb _); eauto.
Qed.

(** X7.  On a token list that is not empty, at a position up to its length,
    [expect] raises nothing: it returns a token or a diagnostic. *)
Theorem expect_returns (self : TokenType) (tokens : list Token) (pos : nat) :
  tokens ≠ [] → pos ≤ length tokens → ∃ r, expect self tokens pos = Done r.
Proof. intros. eapply expect_Done; eauto. Qed.

Lemma expect_returns_witness :
  ∃ r, expect DOT [tok IDENTIFIER "x" 1 1] 1 = Done r.
Proof. apply expect_returns; [discriminate|cbn; lia]. Defined.

Lemma parse_returns_all (fuel : nat) :
  (∀ tokens pos, tokens ≠ [] → pos ≤ length tokens →
     4 * (length tokens - pos) + 1 ≤ fuel →
     ∃ r, parse_lambda fuel tokens pos = Done r) ∧
  (∀ tokens pos, tokens ≠ [] → pos ≤ length tokens →
     4 * (length tokens - pos) + 1 ≤ fuel →
     ∃ r, parse_parentheses fuel tokens pos = Done r) ∧
  (∀ tokens pos, tokens ≠ [] → pos ≤ length tokens →
     4 * (length tokens - pos) + 3 ≤ fuel →
     ∃ r, parse_apply fuel tokens pos = Done r) ∧
  (∀ tokens pos func next f, pos < length tokens → next ≤ length tokens →
     4 * (length tokens - next) + 3 ≤ fuel →
     ∃ r, parse_apply_loop fuel tokens pos func next f = Done r) ∧
  (∀ tokens pos, tokens ≠ [] → pos ≤ length tokens →
     4 * (length tokens - pos) + 2 ≤ fuel →
     ∃ r, parse_primal_expr fuel tokens pos = Done r) ∧
  (∀ tokens pos, tokens ≠ [] → pos ≤ length tokens →
     4 * (length tokens - pos) + 4 ≤ fuel →
     ∃ r, parse_expr fuel tokens pos = Done r).
Proof.
  induction fuel as [|fuel (IHlam & IHpar & IHapp & IHloop & IHprim & IHexpr)].
  { repeat split; intros; lia. }
  destruct (parse_progress_all fuel) as (_ & _ & _ & _ & Pprim & Pexpr).
  split; [|split; [|split; [|split; [|split]]]].
  - intros tokens pos Hne Hpos Hfuel. cbn [parse_lambda].
    destruct (expect_Done IDENTIFIER tokens pos Hne Hpos) as [[t|e] H1]; rewrite H1;
      cbn [mbind run_mbind run_bind]; [|eauto].
    apply expect_Ok_lt in H1.
    destruct (expect_Done DOT tokens (pos + 1) Hne) as [[t'|e] H2]; [lia|..]; rewrite H2;
      cbn [mbind run_mbind run_bind]; [|eauto].
    apply expect_Ok_lt in H2.
    destruct (IHexpr tokens (pos + 2) Hne) as [[[e next]|e] H3]; [lia..| |]; rewrite H3;
      cbn [mbind run_mbind run_bind]; [|eauto].
    destruct (py_getitem_lt tokens pos) as [t0 ->]; [lia|]. cbn. eauto.
  - intros tokens pos Hne Hpos Hfuel. cbn [parse_parentheses].
    destruct (expect_Done L_PAREN tokens pos Hne Hpos) as [[t|e] H1]; rewrite H1;
      cbn [mbind run_mbind run_bind]; [|eauto].
    apply expect_Ok_lt in H1.
    destruct (IHexpr tokens (pos + 1) Hne) as [[[e next]|e] H2]; [lia..| |]; rewrite H2;
      cbn [mbind run_mbind run_bind]; [|eauto].
    apply Pexpr in H2.
    destruct (expect_Done R_PAREN tokens next Hne) as [[t'|e'] H3]; [lia|..]; rewrite H3;
      cbn [mbind run_mbind run_bind]; [|eauto].
    destruct (py_getitem_lt tokens pos) as [t0 ->]; [lia|]. cbn. eauto.
  - intros tokens pos Hne Hpos Hfuel. cbn [parse_apply].
    destruct (IHprim tokens pos Hne Hpos) as [[[func next]|e] H1]; [lia| |]; rewrite H1;
      cbn [mbind run_mbind run_bind]; [|eauto].
    apply Pprim in H1. apply IHloop; lia.
  - intros tokens pos func next f Hpos Hnext Hfuel. cbn [parse_apply_loop].
    assert (Hne : tokens ≠ []) by (intros ->; cbn in Hpos; lia).
    destruct (IHprim tokens next Hne Hnext) as [[[applicant next']|e] H1]; [lia| |];
      rewrite H1; cbn [mbind run_mbind run_bind]; [|destruct f; eauto].
    apply Pprim in H1.
    destruct (py_getitem_lt tokens pos Hpos) as [t0 ->]. cbn [mbind run_mbind run_bind].
    apply IHloop; lia.
  - intros tokens pos Hne Hpos Hfuel. cbn [parse_primal_expr].
    destruct (IHlam tokens pos Hne Hpos) as [[[e next]|e] H1]; [lia| |]; rewrite H1;
      cbn [mbind run_mbind run_bind]; [eauto|].
    destruct (IHpar tokens pos Hne Hpos) as [[[e' next]|e'] H2]; [lia| |]; rewrite H2;
      cbn [mbind run_mbind run_bind]; [eauto|].
    destruct (expect_Done IDENTIFIER tokens pos Hne Hpos) as [[t|e''] ->];
      cbn [mbind run_mbind run_bind]; eauto.
  - intros tokens pos Hne Hpos Hfuel. cbn [parse_expr].
    destruct (IHapp tokens pos Hne Hpos) as [[[e next]|e] H1]; [lia| |]; rewrite H1;
      cbn [mbind run_mbind run_bind]; [eauto|].
    destruct (IHprim tokens pos Hne Hpos) as [[[e' next]|e'] ->]; [lia| |];
      cbn [mbind run_mbind run_bind]; eauto.
Qed.

(** X9.  Parsing terminates and raises nothing.  On a token list that is
    not empty, from a position up to its length, every parse function
    returns ([Ok] or [Err]) as soon as the fuel is four units for each
    remaining token, and four more. *)
Theorem parse_returns (fuel : nat) (tokens : list Token) (pos : nat) :
  tokens ≠ [] → pos ≤ length tokens → 4 * (length tokens - pos) + 4 ≤ fuel →
  (∃ r, parse_lambda fuel tokens pos = Done r) ∧
  (∃ r, parse_parentheses fuel tokens pos = Done r) ∧
  (∃ r, parse_apply fuel tokens pos = Done r) ∧
  (∃ r, parse_primal_expr fuel tokens pos = Done r) ∧
  (∃ r, parse_expr fuel tokens pos = Done r).
Proof.
  destruct (parse_returns_all fuel) as (Hlam & Hpar & Happ & _ & Hprim & Hexpr).
  intros Hne Hpos Hfuel.
  repeat split; [apply Hlam|apply Hpar|apply Happ|apply Hprim|apply Hexpr]; done || lia.
Qed.

Lemma parse_returns_witness :
  ∃ r, parse_expr 8 [tok IDENTIFIER "x" 1 1] 0 = Done r.
Proof.
  apply (parse_returns 8 [tok IDENTIFIER "x" 1 1] 0).
  - discriminate.
  - cbn. lia.
  - cbn. lia.
Defined.

Lemma parse_primal_expr_agree (n m : nat) tokens pos r r' :
  parse_primal_expr n tokens pos = Done r →
  parse_primal_expr m tokens pos = Done r' → r = r'.
Proof.
  intros Hn Hm.
  apply (parse_primal_expr_Done n m) in Hn. apply (parse_primal_expr_Done m n) in Hm.
  rewrite Nat.add_comm in Hm. congruence.
Qed.

Lemma parse_apply_loop_not_Err (n : nat) tokens pos func next e :
  parse_apply_loop n tokens pos func next false ≠ Done (Err e).
Proof.
  revert func next. induction n as [|n IH]; intros func next H; [discriminate|].
  cbn [parse_apply_loop] in H. run_inv H. by apply IH in H.
Qed.

Lemma parse_apply_loop_greedy (n : nat) tokens pos func next f e next' :
  parse_apply_loop n tokens pos func next f = Done (Ok (e, next')) →
  ∃ m err, m < n ∧ parse_primal_expr m tokens next' = Done (Err err).
Proof.
  revert func next f. induction n as [|n IH]; intros func next f H; [discriminate|].
  cbn [parse_apply_loop] in H. run_inv H.
  - apply IH in H as (m & err & Hm & H). exists m, err. split; [lia|done].
  - injection H as <- <-. eexists n, _. split; [lia|done].
Qed.

Lemma parse_expr_stops (fuel : nat) tokens pos e next :
  parse_expr fuel tokens pos = Done (Ok (e, next)) →
  ∃ err, parse_primal_expr fuel tokens next = Done (Err err).
Proof.
  intros H.
  cut (∃ m err, m ≤ fuel ∧ parse_primal_expr m tokens next = Done (Err err)).
  { intros (m & err & Hm & Herr). exists err.
    replace fuel with (m + (fuel - m)) by lia. by apply parse_primal_expr_Done. }
  destruct fuel as [|fuel]; [discriminate|].
  cbn [parse_expr] in H. run_inv H.
  - injection H as <- <-.
    destruct fuel as [|fuel]; [discriminate|]. cbn [parse_apply] in Ha. run_inv Ha.
    apply parse_apply_loop_greedy in Ha as (m & err & Hm & Ha). exists m, err.
    split; [lia|done].
  - injection H as <- <-.
    destruct fuel as [|fuel]; [discriminate|]. cbn [parse_apply] in Ha. run_inv Ha.
    + destruct fuel as [|fuel]; [discriminate|]. cbn [parse_apply_loop] in Ha. run_inv Ha.
      * by apply parse_apply_loop_not_Err in Ha.
      * match goal with
        | H1 : parse_primal_expr (S fuel) tokens pos = Done (Ok (?e1, ?n1)),
          H2 : parse_primal_expr (S (S fuel)) tokens pos = Done (Ok (?e2, ?n2)),
          H3 : parse_primal_expr fuel tokens ?n1 = Done (Err ?err) |- _ =>
            pose proof (parse_primal_expr_agree _ _ _ _ _ _ H1 H2) as [= -> ->];
            exists fuel, err; split; [lia|exact H3]
        end.
    + match goal with
      | H1 : parse_primal_expr fuel tokens pos = Done (Err _),
        H2 : parse_primal_expr (S fuel) tokens pos = Done (Ok _) |- _ =>
          pose proof (parse_primal_expr_agree _ _ _ _ _ _ H1 H2); discriminate
      end.
Qed.

(** X10.  [parse_expr] is greedy: where it stops, no primary expression
    parses.  If it returns [Ok] with the next position [next], then
    [parse_primal_expr] fails at [next]. *)
Theorem parse_expr_greedy (fuel : nat) tokens pos e next :
  parse_expr fuel tokens pos = Done (Ok (e, next)) →
  ∃ err, parse_primal_expr fuel tokens next = Done (Err err).
Proof. intros. eapply parse_expr_stops; eauto. Qed.

Lemma parse_expr_greedy_witness :
  ∃ err, parse_primal_expr 8 [tok IDENTIFIER "x" 1 1] 1 = Done (Err err).
Proof.
  apply (parse_expr_greedy 8 [tok IDENTIFIER "x" 1 1] 0 (Identifier (ident_at "x" 1 1))).
  vm_compute. reflexivity.
Defined.

Lemma parse_primal_expr_Lambda_greedy (n : nat) tokens pos e next :
  parse_primal_expr n tokens pos = Done (Ok (e, next)) → is_Lambda e = true →
  ∃ err, parse_primal_expr n tokens next = Done (Err err).
Proof.
  intros H Hlam.
  cut (∃ m err, m ≤ n ∧ parse_primal_expr m tokens next = Done (Err err)).
  { intros (m & err & Hm & Herr). exists err.
    replace n with (m + (n - m)) by lia. by apply parse_primal_expr_Done. }
  destruct n as [|n]; [discriminate|]. cbn [parse_primal_expr] in H. run_inv H.
  - injection H as <- <-.
    destruct n as [|n]; [discriminate|]. cbn [parse_lambda] in Ha. run_inv Ha.
    match goal with
    | H1 : parse_expr n tokens (pos + 2) = Done (Ok (_, _)) |- _ =>
        apply parse_expr_stops in H1 as [err H1]
    end.
    injection Ha as _ <-. exists n, err. split; [lia|done].
  - injection H as <- <-.
    destruct n as [|n]; [discriminate|]. cbn [parse_parentheses] in Ha0. run_inv Ha0.
    injection Ha0 as <- _. discriminate.
  - injection H as <- <-. discriminate.
Qed.

Lemma parse_no_lambda_head_all (fuel : nat) :
  (∀ tokens pos e next,
     parse_lambda fuel tokens pos = Done (Ok (e, next)) → no_lambda_head e = true) ∧
  (∀ tokens pos e next,
     parse_parentheses fuel tokens pos = Done (Ok (e, next)) → no_lambda_head e = true) ∧
  (∀ tokens pos e next,
     parse_apply fuel tokens pos = Done (Ok (e, next)) → no_lambda_head e = true) ∧
  (∀ tokens pos func next f e next',
     no_lambda_head func = true →
     (is_Lambda func = true → ∃ m err, parse_primal_expr m tokens next = Done (Err err)) →
     parse_apply_loop fuel tokens pos func next f = Done (Ok (e, next')) →
     no_lambda_head e = true) ∧
  (∀ tokens pos e next,
     parse_primal_expr fuel tokens pos = Done (Ok (e, next)) → no_lambda_head e = true) ∧
  (∀ tokens pos e next,
     parse_expr fuel tokens pos = Done (Ok (e, next)) → no_lambda_head e = true).
Proof.
  induction fuel as [|fuel (IHlam & IHpar & IHapp & IHloop & IHprim & IHexpr)].
  { repeat split; discriminate. }
  split; [|split; [|split; [|split; [|split]]]].
  - intros tokens pos e next H. cbn [parse_lambda] in H. run_inv H.
    injection H as <- <-. cbn [no_lambda_head]. eauto.
  - intros tokens pos e next H. cbn [parse_parentheses] in H. run_inv H.
    injection H as <- <-. cbn [no_lambda_head]. eauto.
  - intros tokens pos e next H. cbn [parse_apply] in H. run_inv H.
    eapply IHloop; [| |exact H]; [eauto|].
    intros Hlam. destruct (parse_primal_expr_Lambda_greedy _ _ _ _ _ Ha Hlam) as [err Herr].
    eauto.
  - intros tokens pos func next f e next' Hfunc Hinv H.
    cbn [parse_apply_loop] in H. run_inv H.
    + destruct (is_Lambda func) eqn:Hlam.
      { destruct (Hinv eq_refl) as (m & err & Herr).
        pose proof (parse_primal_expr_agree _ _ _ _ _ _ Herr Ha). discriminate. }
      eapply IHloop; [| |exact H]; [|discriminate].
      cbn [no_lambda_head]. rewrite Hlam, Hfunc. cbn. eauto.
    + by injection H as <- <-.
  - intros tokens pos e next H. cbn [parse_primal_expr] in H. run_inv H.
    + injection H as <- <-. eauto.
    + injection H as <- <-. eauto.
    + by injection H as <- <-.
  - intros tokens pos e next H. cbn [parse_expr] in H. run_inv H.
    + injection H as <- <-. eauto.
    + injection H as <- <-. eauto.
Qed.

(** X11.  No tree that the parser builds has an application whose function
    part is a lambda: a lambda takes all the primary expressions that
    follow it into its body, so nothing is left to apply it to. *)
Theorem parse_no_lambda_head (fuel : nat) (tokens : list Token) (pos : nat)
    (e : Expression) (next : nat) :
  parse_lambda fuel tokens pos = Done (Ok (e, next)) ∨
  parse_parentheses fuel tokens pos = Done (Ok (e, next)) ∨
  parse_apply fuel tokens pos = Done (Ok (e, next)) ∨
  parse_primal_expr fuel tokens pos = Done (Ok (e, next)) ∨
  parse_expr fuel tokens pos = Done (Ok (e, next)) →
  no_lambda_head e = true.
Proof.
  destruct (parse_no_lambda_head_all fuel) as (Hlam & Hpar & Happ & _ & Hprim & Hexpr).
  intros [H|[H|[H|[H|H]]]]; eauto.
Qed.

Lemma parse_no_lambda_head_witness :
  no_lambda_head (Lambda (stdin_loc 1 1) (ident_at "x" 1 1) (Identifier (ident_at "x" 1 3)))
  = true.
Proof.
  apply (parse_no_lambda_head 12
           [tok IDENTIFIER "x" 1 1; tok DOT "." 1 2; tok IDENTIFIER "x" 1 3] 0 _ 3).
  right. right. right. right. vm_compute. reflexivity.
Defined.

(** ** More on the lexer *)

Lemma length_list_ascii_of_string (s : string) :
  length (list_ascii_of_string s) = String.length s.
Proof. induction s as [|c s IH]; [done|]. cbn. by rewrite IH. Qed.

(** Splits the cascade of tests of [tokenize_step] in a hypothesis. *)
Ltac step_cases H :=
  unfold tokenize_step in H;
  repeat match type of H with
    | context [if ?b then _ else _] => destruct b eqn:?
    | context [let '(_, _) := ?p in _] => destruct p as [? ?] eqn:?
    end.

Lemma tokenize_step_Done (file code : string) (c : ascii) (st st' : LexState) :
  tokenize_step file code c st = Done st' →
  1 ≤ lx_line st → Forall (token_ok file) (lx_tokens st) →
  1 ≤ lx_line st' ∧ Forall (token_ok file) (lx_tokens st') ∧
  length (lx_tokens st') ≤ S (length (lx_tokens st)).
Proof.
  intros H Hline Hok.
  step_cases H; try discriminate; injection H as <-; cbn [lx_line lx_tokens];
    rewrite ?Forall_app, ?Forall_singleton, ?length_app; cbn [length];
    (split; [lia|split; [|lia]]); try done;
    (split; [done|]); unfold token_ok; cbn; repeat split; lia.
Qed.

Lemma tokenize_loop_Done (file code : string) (rest : list ascii) (st st' : LexState) :
  tokenize_loop file code rest st = Done st' →
  1 ≤ lx_line st → Forall (token_ok file) (lx_tokens st) →
  Forall (token_ok file) (lx_tokens st') ∧
  length (lx_tokens st') ≤ length (lx_tokens st) + length rest.
Proof.
  revert st. induction rest as [|c rest IH]; intros st H Hline Hok.
  - injection H as <-. split; [done|lia].
  - cbn [tokenize_loop] in H. apply bind_Done_inv in H as (st1 & Hstep & H).
    destruct (tokenize_step_Done _ _ _ _ _ Hstep Hline Hok) as (Hline1 & Hok1 & Hlen1).
    destruct (IH _ H Hline1 Hok1) as [Hok' Hlen']. split; [done|]. cbn [length]. lia.
Qed.

Lemma tokenize_at_most (file code : string) (tokens : list Token) :
  tokenize file code = Done tokens → length tokens ≤ String.length code.
Proof.
  unfold tokenize. intros H. apply bind_Done_inv in H as (st & Hloop & H).
  injection H as <-.
  apply tokenize_loop_Done in Hloop as [_ Hlen]; cbn; [|lia|done].
  by rewrite length_list_ascii_of_string in Hlen.
Qed.

(** X2.  The lexer makes at most one token for each character of the text. *)
Theorem tokenize_length (file code : string) (tokens : list Token) :
  tokenize file code = Done tokens → length tokens ≤ String.length code.
Proof. intros. eapply tokenize_at_most; eauto. Qed.

Lemma tokenize_length_witness :
  length [tok IDENTIFIER "x" 1 1; tok DOT "." 1 2] ≤ String.length "x.".
Proof. apply (tokenize_length "<stdin>" "x."). reflexivity. Defined.

(** X3.  Every token of the lexer carries the name of the file it was given,
    a line and a column that are at least 1 and, when it is a punctuation
    mark or a keyword, the spelling of its kind. *)
Theorem tokenize_tokens_ok (file code : string) (tokens : list Token) :
  tokenize file code = Done tokens → Forall (token_ok file) tokens.
Proof.
  unfold tokenize. intros H. apply bind_Done_inv in H as (st & Hloop & H).
  injection H as <-.
  apply tokenize_loop_Done in Hloop as [Hok _]; cbn; [done|lia|done].
Qed.

Lemma tokenize_tokens_ok_witness :
  Forall (token_ok "<stdin>") [tok IDENTIFIER "x" 1 1; tok DOT "." 1 2].
Proof. apply (tokenize_tokens_ok "<stdin>" "x."). reflexivity. Defined.

Lemma tokenize_step_Raise (file code : string) (c : ascii) (st : LexState) (x : PyExc) :
  tokenize_step file code c st = Raise x →
  is_blank c = false ∧ char_in c ".=()" = false ∧ char_in c ident_start_chars = false ∧
  x = ValueError ("Unexpected character '" ++ String c EmptyString ++ "' at "
                    ++ file ++ ":" ++ str_of_nat (lx_line st) ++ ":"
                    ++ str_of_nat (lx_col st + 1))%string.
Proof.
  intros H. step_cases H; try discriminate. injection H as <-.
  unfold is_blank, char_in. cbn [list_ascii_of_string existsb].
  repeat match goal with H : Ascii.eqb _ _ = false |- _ => rewrite H; clear H end.
  done.
Qed.

Lemma tokenize_step_not_OutOfFuel (file code : string) (c : ascii) (st : LexState) :
  tokenize_step file code c st ≠ OutOfFuel.
Proof. intros H. step_cases H; discriminate. Qed.

Lemma tokenize_cases (file code : string) :
  (∃ tokens, tokenize file code = Done tokens) ∨
  (∃ c line col,
     c ∈ list_ascii_of_string code ∧
     is_blank c = false ∧ char_in c ".=()" = false ∧
     char_in c ident_start_chars = false ∧
     tokenize file code
     = Raise (ValueError ("Unexpected character '" ++ String c EmptyString ++ "' at "
                            ++ file ++ ":" ++ str_of_nat line ++ ":"
                            ++ str_of_nat col)%string)).
Proof.
  unfold tokenize.
  cut (∀ rest st,
         (∃ st', tokenize_loop file code rest st = Done st') ∨
         (∃ c line col,
            c ∈ rest ∧ is_blank c = false ∧ char_in c ".=()" = false ∧
            char_in c ident_start_chars = false ∧
            tokenize_loop file code rest st
            = Raise (ValueError ("Unexpected character '" ++ String c EmptyString ++ "' at "
                                   ++ file ++ ":" ++ str_of_nat line ++ ":"
                                   ++ str_of_nat col)%string))).
  { intros Hloop.
    destruct (Hloop (list_ascii_of_string code) (MkLexState [] 1 0 0))
      as [[st' ->]|(c & line & col & Hc & Hb & Hp & Hi & ->)].
    - left. by eexists.
    - right. by exists c, line, col. }
  induction rest as [|c rest IH]; intros st.
  - left. by eexists.
  - cbn [tokenize_loop].
    destruct (tokenize_step file code c st) as [st1|x|] eqn:Hstep.
    + cbn [mbind run_mbind run_bind].
      destruct (IH st1) as [?|(c' & line & col & Hc & Hb & Hp & Hi & ->)]; [by left|].
      right. exists c', line, col. repeat split; try done. by apply list_elem_of_further.
    + apply tokenize_step_Raise in Hstep as (Hb & Hp & Hi & ->).
      right. exists c, (lx_line st), (lx_col st + 1). repeat split; try done.
      apply list_elem_of_here.
    + by apply tokenize_step_not_OutOfFuel in Hstep.
Qed.

(** X4.  The lexer either returns its tokens or raises [ValueError] for a
    character of the text that is neither a blank, nor one of [. = ( )], nor
    a letter or an underscore; the message names that character.  It raises
    nothing else. *)
Theorem tokenize_outcome (file code : string) :
  (∃ tokens, tokenize file code = Done tokens) ∨
  (∃ c line col,
     c ∈ list_ascii_of_string code ∧
     is_blank c = false ∧ char_in c ".=()" = false ∧
     char_in c ident_start_chars = false ∧
     tokenize file code
     = Raise (ValueError ("Unexpected character '" ++ String c EmptyString ++ "' at "
                            ++ file ++ ":" ++ str_of_nat line ++ ":"
                            ++ str_of_nat col)%string)).
Proof. intros. eapply tokenize_cases; eauto. Qed.

(** X5.  A text of blanks and newlines only has no token. *)
Theorem tokenize_blank (file code : string) :
  forallb is_blank (list_ascii_of_string code) = true → tokenize file code = Done [].
Proof.
  unfold tokenize.
  cut (∀ rest st,
         forallb is_blank rest = true →
         ∃ st', tokenize_loop file code rest st = Done st' ∧ lx_tokens st' = lx_tokens st).
  { intros Hloop Hblank.
    destruct (Hloop _ (MkLexState [] 1 0 0) Hblank) as (st' & -> & Htok).
    cbn [mbind run_mbind run_bind]. by rewrite Htok. }
  induction rest as [|c rest IH]; intros st Hblank.
  - by exists st.
  - cbn [forallb] in Hblank. apply andb_true_iff in Hblank as [Hc Hrest].
    cbn [tokenize_loop]. unfold tokenize_step. unfold is_blank in Hc.
    destruct (Ascii.eqb c "010").
    + cbn [mbind run_mbind run_bind]. destruct (IH (MkLexState (lx_tokens st)
        (lx_line st + 1) 0 (lx_cons st + 1)) Hrest) as (st' & -> & Htok). by exists st'.
    + cbn [orb] in Hc. rewrite Hc. cbn [mbind run_mbind run_bind].
      destruct (IH (MkLexState (lx_tokens st) (lx_line st) (lx_col st + 1)
        (lx_cons st + 1)) Hrest) as (st' & -> & Htok). by exists st'.
Qed.

Lemma tokenize_blank_witness : tokenize "<stdin>" "  " = Done [].
Proof. apply tokenize_blank. reflexivity. Defined.

(** ** The entry point [parse] *)

Lemma parse_expr_enough_fuel (tokens : list Token) (n : nat) :
  tokens ≠ [] → 4 * length tokens + 4 ≤ n → ∃ r, parse_expr n tokens 0 = Done r.
Proof.
  intros Hne Hn. apply (parse_returns_all n); [done|lia|lia].
Qed.

Lemma parse_expr_never_raises (fuel : nat) (tokens : list Token) (x : PyExc) :
  tokens ≠ [] → parse_expr fuel tokens 0 ≠ Raise x.
Proof.
  intros Hne H.
  destruct (parse_expr_enough_fuel tokens (fuel + (4 * length tokens + 4)) Hne) as [r Hr];
    [lia|].
  apply (le_run_Raise _ _ _ (parse_expr_fuel fuel (4 * length tokens + 4) tokens 0)) in H.
  congruence.
Qed.

(** What [parse] does with the tokens once the lexer has returned them. *)
Lemma parse_tokens (fuel : nat) (code file : string) (tokens : list Token) :
  tokenize file code = Done tokens → tokens ≠ [] →
  parse fuel code file = OutOfFuel ∨
  (∃ e, parse fuel code file = Done e ∧ no_lambda_head e = true) ∨
  (∃ msg, parse fuel code file = Raise (SyntaxError msg)).
Proof.
  intros Htok Hne. unfold parse. rewrite Htok. cbn [mbind run_mbind run_bind].
  destruct (parse_expr fuel tokens 0) as [[[e next]|err]|x|] eqn:Hexpr;
    cbn [mbind run_mbind run_bind].
  - destruct (next =? length tokens) eqn:Hnext; cbn [negb].
    + right. left. exists e. split; [done|].
      by apply (proj2 (proj2 (proj2 (proj2 (proj2 (parse_no_lambda_head_all fuel))))))
        in Hexpr.
    + apply (proj2 (proj2 (proj2 (proj2 (proj2 (parse_progress_all fuel)))))) in Hexpr.
      apply Nat.eqb_neq in Hnext.
      destruct (py_getitem_lt tokens next) as [t ->]; [lia|].
      cbn [mbind run_mbind run_bind]. right. right. by eexists.
  - right. right. by eexists.
  - by apply parse_expr_never_raises in Hexpr.
  - by left.
Qed.

(** X12.  [parse] raises [IndexError], for some fuel, exactly when the text
    has no token at all. *)
Theorem parse_IndexError_iff (code file : string) :
  (∃ fuel, parse fuel code file = Raise IndexError) ↔ tokenize file code = Done [].
Proof.
  split.
  - intros [fuel H].
    destruct (tokenize_cases file code)
      as [[tokens Htok]|(c & line & col & _ & _ & _ & _ & Htok)].
    + destruct tokens as [|t tokens]; [done|].
      destruct (parse_tokens fuel code file (t :: tokens) Htok)
        as [H'|[(e & H' & _)|[msg H']]]; [done|congruence..].
    + unfold parse in H. rewrite Htok in H. discriminate H.
  - intros Htok. exists 4. unfold parse. by rewrite Htok.
Qed.

(** X13.  [parse] terminates on every text, with four units of fuel for each
    character and four more.  It returns a tree, in which no application
    has a lambda as its function part, or raises [SyntaxError], or the
    [ValueError] of the lexer, or [IndexError] when the text has no
    token. *)
Theorem parse_outcome (code file : string) (k : nat) :
  let r := parse (4 * String.length code + 4 + k) code file in
  (∃ e, r = Done e ∧ no_lambda_head e = true) ∨
  (∃ msg, r = Raise (SyntaxError msg)) ∨
  (∃ msg, r = Raise (ValueError msg) ∧ tokenize file code = Raise (ValueError msg)) ∨
  (r = Raise IndexError ∧ tokenize file code = Done []).
Proof.
  intros r. subst r.
  destruct (tokenize_cases file code)
    as [[tokens Htok]|(c & line & col & _ & _ & _ & _ & Htok)].
  - destruct tokens as [|t tokens].
    + right. right. right. split; [|done].
      replace (4 * String.length code + 4 + k)
        with (4 + (4 * String.length code + k)) by lia.
      eapply le_run_Raise; [apply parse_fuel|]. unfold parse. by rewrite Htok.
    + pose proof (tokenize_at_most _ _ _ Htok) as Hlen.
      destruct (parse_tokens (4 * String.length code + 4 + k) code file (t :: tokens) Htok)
        as [H|[H|H]]; [done| |by left|by right; left].
      exfalso. unfold parse in H. rewrite Htok in H. cbn [mbind run_mbind run_bind] in H.
      destruct (parse_expr_enough_fuel (t :: tokens) (4 * String.length code + 4 + k))
        as [res Hres]; [done|lia|].
      rewrite Hres in H. cbn [mbind run_mbind run_bind] in H.
      destruct res as [[e next]|err]; [|discriminate H].
      apply (proj2 (proj2 (proj2 (proj2 (proj2 (parse_progress_all _)))))) in Hres.
      destruct (next =? length (t :: tokens)) eqn:Hnext; [discriminate H|].
      apply Nat.eqb_neq in Hnext.
      destruct (py_getitem_lt (t :: tokens) next) as [t' Ht']; [lia|].
      cbn [negb] in H. rewrite Ht' in H. discriminate H.
  - right. right. left. eexists. split; [|exact Htok].
    unfold parse. by rewrite Htok.
Qed.

(** ** The lexer on one line of one-character identifiers *)

Lemma get_list_ascii (s : string) (n : nat) :
  String.get n s = list_ascii_of_string s !! n.
Proof.
  revert n. induction s as [|c s IH]; intros [|n]; cbn; first [done | apply IH].
Qed.

Lemma substring_list_ascii (s : string) (n m : nat) :
  substring n m s = string_of_list_ascii (take m (drop n (list_ascii_of_string s))).
Proof.
  revert n m. induction s as [|c s IH]; intros [|n] [|m]; cbn;
    first [done | apply IH | by rewrite (IH 0 m), drop_0].
Qed.

Lemma ident_start_not_mark (ch : ascii) :
  char_in ch ident_start_chars = true →
  Ascii.eqb ch "010" = false ∧ Ascii.eqb ch " " = false ∧ Ascii.eqb ch "." = false ∧
  Ascii.eqb ch "=" = false ∧ Ascii.eqb ch "(" = false ∧ Ascii.eqb ch ")" = false.
Proof.
  intros H.
  destruct ch as [[] [] [] [] [] [] [] []];
    first [by repeat split | vm_compute in H; discriminate H].
Qed.

Lemma not_ident_char (ch : ascii) :
  char_in ch ident_chars = false → Ascii.eqb ch "e" = false ∧ Ascii.eqb ch "h" = false.
Proof.
  intros H. split.
  - destruct (Ascii.eqb_spec ch "e") as [->|]; [vm_compute in H; discriminate H|done].
  - destruct (Ascii.eqb_spec ch "h") as [->|]; [vm_compute in H; discriminate H|done].
Qed.

Lemma scan_identifier_stop (code : string) (n col cons : nat) :
  match list_ascii_of_string code !! col with
  | Some ch => char_in ch ident_chars = false
  | None => True
  end →
  scan_identifier code n col cons = (col, cons).
Proof.
  intros H. destruct n as [|n]; [done|]. cbn [scan_identifier].
  rewrite get_list_ascii. destruct (list_ascii_of_string code !! col); [|done].
  by rewrite H.
Qed.

Lemma tokenize_step_single_letter (file code : string) (pre : list ascii) (ch : ascii)
    (rest : list ascii) (st : LexState) :
  list_ascii_of_string code = pre ++ ch :: rest →
  lx_line st = 1 → lx_col st = length pre → lx_cons st = length pre →
  char_in ch " .=()"
  || char_in ch ident_start_chars
     && match rest with
        | [] => true
        | ch' :: _ => negb (char_in ch' ident_chars)
        end = true →
  tokenize_step file code ch st
  = Done (MkLexState (lx_tokens st ++ char_token file (S (length pre)) ch)
            1 (S (length pre)) (S (length pre))).
Proof.
  intros Hcode Hline Hcol Hcons H.
  unfold tokenize_step. rewrite Hline, Hcol, Hcons, !Nat.add_1_r.
  apply orb_true_iff in H as [H|H].
  - unfold char_in in H. cbn [list_ascii_of_string existsb] in H.
    rewrite orb_false_r in H.
    repeat (apply orb_true_iff in H as [H|H]);
      apply Ascii.eqb_eq in H; subst ch; cbn; by rewrite ?app_nil_r.
  - apply andb_true_iff in H as [Hstart Hnext].
    destruct (ident_start_not_mark ch Hstart) as (-> & H1 & H2 & H3 & H4 & H5).
    unfold char_token. rewrite H1, H2, H3, H4, H5, Hstart.
    assert (Hfollow : match list_ascii_of_string code !! S (length pre) with
                      | Some ch' => char_in ch' ident_chars = false
                      | None => True
                      end).
    { rewrite Hcode, lookup_app_r by lia.
      replace (S (length pre) - length pre) with 1 by lia. cbn.
      destruct rest as [|ch' rest]; [done|]. cbn. by apply negb_true_iff. }
    assert (Hlet : String.eqb (py_slice code (S (length pre)) (S (length pre) + 2)) "et"
                   = false).
    { unfold py_slice. rewrite substring_list_ascii, Hcode, drop_app_ge by lia.
      rewrite Hcode, lookup_app_r in Hfollow by lia.
      replace (S (length pre) - length pre) with 1 in * by lia.
      replace (S (length pre) + 2 - S (length pre)) with 2 by lia.
      destruct rest as [|ch' rest]; [done|]. cbn in Hfollow.
      apply not_ident_char in Hfollow as [He _].
      cbn. by rewrite He. }
    assert (Hwhere : String.eqb (py_slice code (S (length pre)) (S (length pre) + 4)) "here"
                     = false).
    { unfold py_slice. rewrite substring_list_ascii, Hcode, drop_app_ge by lia.
      rewrite Hcode, lookup_app_r in Hfollow by lia.
      replace (S (length pre) - length pre) with 1 in * by lia.
      replace (S (length pre) + 4 - S (length pre)) with 4 by lia.
      destruct rest as [|ch' rest]; [done|]. cbn in Hfollow.
      apply not_ident_char in Hfollow as [_ Hh].
      cbn. by rewrite Hh. }
    rewrite Hlet, Hwhere, !andb_false_r.
    rewrite (scan_identifier_stop code _ _ _ Hfollow).
    unfold py_slice. rewrite substring_list_ascii, Hcode.
    replace (S (length pre) - 1) with (length pre) by lia.
    replace (S (length pre) - length pre) with 1 by lia.
    rewrite drop_app_length. done.
Qed.

Lemma tokenize_loop_single_letter (file code : string) (rest pre : list ascii)
    (st : LexState) :
  list_ascii_of_string code = pre ++ rest →
  lx_line st = 1 → lx_col st = length pre → lx_cons st = length pre →
  single_letter_text rest = true →
  ∃ st', tokenize_loop file code rest st = Done st' ∧
         lx_tokens st' = lx_tokens st ++ one_line_tokens file (S (length pre)) rest.
Proof.
  revert pre st. induction rest as [|ch rest IH]; intros pre st Hcode Hline Hcol Hcons H.
  - exists st. split; [done|]. cbn. by rewrite app_nil_r.
  - cbn [single_letter_text] in H. apply andb_true_iff in H as [Hch Hrest].
    cbn [tokenize_loop].
    rewrite (tokenize_step_single_letter file code pre ch rest st) by done.
    cbn [mbind run_mbind run_bind].
    destruct (IH (pre ++ [ch])
                (MkLexState (lx_tokens st ++ char_token file (S (length pre)) ch)
                   1 (S (length pre)) (S (length pre))))
      as (st' & Hloop & Htok).
    + by rewrite <- app_assoc.
    + done.
    + cbn. rewrite length_app. cbn. lia.
    + cbn. rewrite length_app. cbn. lia.
    + done.
    + exists st'. split; [done|]. rewrite Htok. cbn [lx_tokens one_line_tokens].
      rewrite length_app, <- app_assoc. cbn [length].
      by replace (length pre + 1) with (S (length pre)) by lia.
Qed.

Lemma tokenize_one_line (file code : string) :
  single_letter_text (list_ascii_of_string code) = true →
  tokenize file code = Done (one_line_tokens file 1 (list_ascii_of_string code)).
Proof.
  intros H. unfold tokenize.
  destruct (tokenize_loop_single_letter file code (list_ascii_of_string code) []
              (MkLexState [] 1 0 0)) as (st' & -> & Htok); try done.
  cbn [mbind run_mbind run_bind]. by rewrite Htok.
Qed.

(** X1.  On a text of one line whose identifiers have one character each
    (every character a space, one of [. = ( )], or a letter or underscore
    that no letter, digit or underscore follows) the lexer meets its
    contract: one token for each mark and each identifier, in the order of
    the text, at line 1 and at the column of the character counted from
    1. *)
Theorem tokenize_single_letter_text (file code : string) :
  single_letter_text (list_ascii_of_string code) = true →
  tokenize file code = Done (one_line_tokens file 1 (list_ascii_of_string code)).
Proof. apply tokenize_one_line. Qed.

Lemma tokenize_single_letter_text_witness :
  tokenize "<stdin>" "(x.x) a"
  = Done (one_line_tokens "<stdin>" 1 (list_ascii_of_string "(x.x) a")).
Proof. apply tokenize_single_letter_text. reflexivity. Defined.

(** ** What [apply] and [eval] compute, positions and parentheses apart *)

Lemma shape_apply_walk (param : Ident) (applicant body : Expression) :
  shape (apply_walk param applicant body)
  = naive_subst (name param) (shape applicant) (shape body).
Proof.
  induction body as [i|l p body IH|l e IH|l f IHf a IHa];
    cbn [apply_walk shape naive_subst]; unfold ident_eq.
  - by destruct (String.eqb (name i) (name param)).
  - destruct (String.eqb (name param) (name p)); [done|]. cbn [shape]. by rewrite IH.
  - done.
  - by rewrite IHf, IHa.
Qed.

Lemma shape_ununique_ident (e : Expression) :
  shape (ununique_ident e) = rename_all split_dollar_head (shape e).
Proof.
  induction e as [i|l p body IH|l e IH|l f IHf a IHa];
    cbn [ununique_ident shape rename_all ununique_name name].
  - done.
  - by rewrite IH.
  - done.
  - by rewrite IHf, IHa.
Qed.

(** X22.  [apply] on a lambda always returns, and what it returns is, positions
    and parentheses apart, the naive substitution of the argument for the
    parameter in the body, the one that lets binders of the body capture
    variables of the argument, with every name then cut at its first dollar
    sign. *)
Theorem apply_is_naive_subst (l : Loc) (param : Ident) (body applicant : Expression) :
  ∃ r, apply (Lambda l param body) applicant = Done r ∧
       shape r = rename_all split_dollar_head
                   (naive_subst (name param) (shape applicant) (shape body)).
Proof.
  eexists. split; [apply apply_Lambda|].
  by rewrite shape_ununique_ident, shape_apply_walk.
Qed.

Lemma term_eval_fuel_S (n : nat) : ∀ t, le_run (term_eval n t) (term_eval (S n) t).
Proof.
  induction n as [|n IH]; intros t; [by left|].
  cbn [term_eval]. destruct t; le_run_bodies.
Qed.

Lemma term_eval_Done (n k : nat) (t t' : term) :
  term_eval n t = Done t' → term_eval (n + k) t = Done t'.
Proof.
  intros H. induction k as [|k IH].
  - by rewrite Nat.add_0_r.
  - rewrite Nat.add_succ_r. eapply le_run_Done; [apply term_eval_fuel_S|exact IH].
Qed.

Lemma is_value_shape (v : Expression) :
  is_value v = true →
  match shape v with
  | TLam x body =>
      ∃ l param e, v = Lambda l param e ∧ x = name param ∧ body = shape e
  | _ => is_Lambda v = false
  end.
Proof.
  destruct v as [i|l param body|l e|l f a]; cbn; try done.
  intros _. by exists l, param, body.
Qed.

Lemma eval_term_eval (n : nat) (e v : Expression) :
  eval n e = Done v → term_eval n (shape e) = Done (shape v).
Proof.
  revert e v. induction n as [|n IH]; intros e v H; [discriminate|].
  cbn [eval] in H. destruct e as [i|l param body|l e|l func applicant].
  - by injection H as <-.
  - by injection H as <-.
  - apply IH in H. cbn [shape].
    replace (S n) with (n + 1) by lia. by apply term_eval_Done.
  - destruct (eval n func) as [func'| |] eqn:Hfunc; try discriminate.
    destruct (eval n applicant) as [applicant'| |] eqn:Happ; try discriminate.
    cbn [mbind run_mbind run_bind] in H.
    pose proof (is_value_shape _ (eval_is_value _ _ _ Hfunc)) as Hshape.
    cbn [shape term_eval]. rewrite (IH _ _ Hfunc), (IH _ _ Happ).
    cbn [mbind run_mbind run_bind].
    destruct (shape func') as [x|x body|tf ta] eqn:Hsh.
    + rewrite Hshape in H. injection H as <-. cbn [shape]. by rewrite Hsh.
    + destruct Hshape as (l' & param & e & -> & -> & ->).
      cbn [is_Lambda] in H. rewrite apply_Lambda in H.
      cbn [mbind run_mbind run_bind] in H. apply IH in H.
      by rewrite shape_ununique_ident, shape_apply_walk in H.
    + rewrite Hshape in H. injection H as <-. cbn [shape]. by rewrite Hsh.
Qed.

Lemma term_eval_eval (n : nat) (e : Expression) (t' : term) :
  term_eval n (shape e) = Done t' → ∃ m v, eval m e = Done v ∧ shape v = t'.
Proof.
  revert e t'. induction n as [|n IH]; intros e t' H; [discriminate|].
  induction e as [i|l param body _|l e IHe|l func _ applicant _].
  - injection H as <-. by exists 1, (Identifier i).
  - injection H as <-. by exists 1, (Lambda l param body).
  - destruct (IHe H) as (m & v & Hv & Hsh). by exists (S m), v.
  - cbn [shape term_eval] in H.
    destruct (term_eval n (shape func)) as [tf| |] eqn:Hfunc; try discriminate.
    destruct (term_eval n (shape applicant)) as [ta| |] eqn:Happ; try discriminate.
    cbn [mbind run_mbind run_bind] in H.
    destruct (IH _ _ Hfunc) as (m1 & fv & Hfv & Hfsh).
    destruct (IH _ _ Happ) as (m2 & av & Hav & Hash).
    pose proof (is_value_shape _ (eval_is_value _ _ _ Hfv)) as Hshape.
    rewrite Hfsh in Hshape.
    assert (Hstuck : is_Lambda fv = false →
                     ∃ m v, eval m (Apply l func applicant) = Done v ∧
                            shape v = TApp tf ta).
    { intros Hlam. exists (S (m1 + m2)), (Apply l fv av). split.
      - cbn [eval]. rewrite (eval_Done _ m2 _ _ Hfv).
        cbn [mbind run_mbind run_bind].
        replace (m1 + m2) with (m2 + m1) by lia. rewrite (eval_Done _ m1 _ _ Hav).
        cbn [mbind run_mbind run_bind]. by rewrite Hlam.
      - cbn [shape]. by rewrite Hfsh, Hash. }
    destruct tf as [x|x body|tf1 tf2].
    + injection H as <-. by apply Hstuck.
    + destruct Hshape as (l' & param & b & -> & -> & ->).
      rewrite <- Hash, <- shape_apply_walk, <- shape_ununique_ident in H.
      destruct (IH _ _ H) as (m3 & v & Hv & Hsh).
      exists (S (m1 + m2 + m3)), v. split; [|done].
      cbn [eval].
      replace (m1 + m2 + m3) with (m1 + (m2 + m3)) at 1 by lia.
      rewrite (eval_Done _ _ _ _ Hfv). cbn [mbind run_mbind run_bind].
      replace (m1 + m2 + m3) with (m2 + (m1 + m3)) at 1 by lia.
      rewrite (eval_Done _ _ _ _ Hav). cbn [mbind run_mbind run_bind is_Lambda].
      rewrite apply_Lambda. cbn [mbind run_mbind run_bind].
      replace (m1 + m2 + m3) with (m3 + (m1 + m2)) by lia.
      by apply eval_Done.
    + injection H as <-. by apply Hstuck.
Qed.

(** X26.  Evaluation looks neither at positions nor at parentheses: two
    expressions with the same shape evaluate, when one of them does, to
    values with the same shape. *)
Theorem eval_shape (fuel : nat) (e1 e2 v1 : Expression) :
  shape e1 = shape e2 → eval fuel e1 = Done v1 →
  ∃ fuel' v2, eval fuel' e2 = Done v2 ∧ shape v2 = shape v1.
Proof.
  intros Hshape H. apply eval_term_eval in H. rewrite Hshape in H.
  by apply term_eval_eval in H.
Qed.

Lemma eval_shape_witness :
  ∃ fuel' v2,
    eval fuel' (Parentheses (stdin_loc 1 1) (Identifier (ident_at "a" 1 2))) = Done v2 ∧
    shape v2 = shape (Identifier (ident_at "a" 9 9)).
Proof.
  apply (eval_shape 1 (Identifier (ident_at "a" 9 9))); reflexivity.
Defined.

(** ** Printing and parsing again *)

Lemma parse_lambda_Done (n k : nat) tokens pos r :
  parse_lambda n tokens pos = Done r → parse_lambda (n + k) tokens pos = Done r.
Proof.
  intros H. induction k as [|k IH].
  - by rewrite Nat.add_0_r.
  - rewrite Nat.add_succ_r. eapply le_run_Done; [apply (parse_fuel_S (n + k))|exact IH].
Qed.

Lemma parse_apply_loop_Done (n k : nat) tokens pos func next f r :
  parse_apply_loop n tokens pos func next f = Done r →
  parse_apply_loop (n + k) tokens pos func next f = Done r.
Proof.
  intros H. induction k as [|k IH].
  - by rewrite Nat.add_0_r.
  - rewrite Nat.add_succ_r. eapply le_run_Done; [apply (parse_fuel_S (n + k))|exact IH].
Qed.

Lemma expect_Err (self : TokenType) (tokens : list Token) (pos : nat) :
  tokens ≠ [] → pos ≤ length tokens → kind_at tokens pos ≠ Some self →
  ∃ err, expect self tokens pos = Done (Err err).
Proof.
  intros Hne Hpos Hkind.
  destruct (expect_Done self tokens pos Hne Hpos) as [[t|err] H]; [|by exists err].
  apply expect_Ok_spec in H as [Ht Htype]. unfold kind_at in Hkind.
  rewrite Ht in Hkind. cbn in Hkind. congruence.
Qed.

Lemma expect_kind (self : TokenType) (tokens : list Token) (pos : nat) (t : Token) :
  tokens !! pos = Some t → type t = self → expect self tokens pos = Done (Ok t).
Proof. intros Ht Htype. by apply expect_Ok_spec. Qed.

(** An identifier that no dot follows parses as a primary expression. *)
Lemma parse_primal_expr_identifier (n : nat) tokens pos t :
  tokens !! pos = Some t → type t = IDENTIFIER → kind_at tokens (pos + 1) ≠ Some DOT →
  parse_primal_expr (S (S n)) tokens pos
  = Done (Ok (Identifier (MkIdent (tok_loc t) (value t)), pos + 1)).
Proof.
  intros Ht Htype Hdot.
  assert (Hlt : pos < length tokens) by by apply lookup_lt_Some in Ht.
  assert (Hne : tokens ≠ []) by (intros ->; cbn in Hlt; lia).
  cbn [parse_primal_expr parse_lambda parse_parentheses].
  rewrite (expect_kind IDENTIFIER tokens pos t Ht Htype). cbn [mbind run_mbind run_bind].
  destruct (expect_Err DOT tokens (pos + 1)) as [e1 ->]; [done|lia|done|].
  cbn [mbind run_mbind run_bind].
  destruct (expect_Err L_PAREN tokens pos) as [e2 ->]; [done|lia| |].
  { unfold kind_at. rewrite Ht. cbn. congruence. }
  done.
Qed.

(** A parenthesized expression parses as a primary expression. *)
Lemma parse_primal_expr_parentheses (n : nat) tokens pos t e next t' :
  tokens !! pos = Some t → type t = L_PAREN →
  parse_expr n tokens (pos + 1) = Done (Ok (e, next)) →
  tokens !! next = Some t' → type t' = R_PAREN →
  parse_primal_expr (S (S n)) tokens pos
  = Done (Ok (Parentheses (tok_loc t) e, next + 1)).
Proof.
  intros Ht Htype He Ht' Htype'.
  assert (Hlt : pos < length tokens) by by apply lookup_lt_Some in Ht.
  assert (Hne : tokens ≠ []) by (intros ->; cbn in Hlt; lia).
  cbn [parse_primal_expr parse_lambda parse_parentheses].
  destruct (expect_Err IDENTIFIER tokens pos) as [e1 ->]; [done|lia| |].
  { unfold kind_at. rewrite Ht. cbn. congruence. }
  cbn [mbind run_mbind run_bind].
  rewrite (expect_kind L_PAREN tokens pos t Ht Htype). cbn [mbind run_mbind run_bind].
  rewrite He. cbn [mbind run_mbind run_bind].
  rewrite (expect_kind R_PAREN tokens next t' Ht' Htype'). cbn [mbind run_mbind run_bind].
  rewrite py_getitem_nat, Ht. done.
Qed.

(** A lambda parses as a primary expression. *)
Lemma parse_primal_expr_lambda (n : nat) tokens pos t t' body next :
  tokens !! pos = Some t → type t = IDENTIFIER →
  tokens !! (pos + 1) = Some t' → type t' = DOT →
  parse_expr n tokens (pos + 2) = Done (Ok (body, next)) →
  parse_primal_expr (S (S n)) tokens pos
  = Done (Ok (Lambda (tok_loc t) (MkIdent (tok_loc t) (value t)) body, next)).
Proof.
  intros Ht Htype Ht' Htype' Hbody.
  cbn [parse_primal_expr parse_lambda].
  rewrite (expect_kind IDENTIFIER tokens pos t Ht Htype). cbn [mbind run_mbind run_bind].
  rewrite (expect_kind DOT tokens (pos + 1) t' Ht' Htype'). cbn [mbind run_mbind run_bind].
  rewrite Hbody. cbn [mbind run_mbind run_bind].
  rewrite py_getitem_nat, Ht. done.
Qed.

(** Where an expression may end, no primary expression parses. *)
Lemma parse_primal_expr_stop (n : nat) tokens pos :
  tokens ≠ [] → pos ≤ length tokens → stop tokens pos →
  ∃ err, parse_primal_expr (S (S n)) tokens pos = Done (Err err).
Proof.
  intros Hne Hpos Hstop.
  assert (Hk : ∀ k, k = IDENTIFIER ∨ k = L_PAREN → kind_at tokens pos ≠ Some k).
  { intros k Hk. destruct Hstop as [->| ->]; [done|]. destruct Hk as [->| ->]; congruence. }
  cbn [parse_primal_expr parse_lambda parse_parentheses].
  destruct (expect_Err IDENTIFIER tokens pos) as [e1 ->]; [done|done|by apply Hk; left|].
  cbn [mbind run_mbind run_bind].
  destruct (expect_Err L_PAREN tokens pos) as [e2 ->]; [done|done|by apply Hk; right|].
  cbn [mbind run_mbind run_bind]. by exists e1.
Qed.

Lemma parse_apply_loop_step (n : nat) tokens pos func next f applicant next' t :
  parse_primal_expr n tokens next = Done (Ok (applicant, next')) →
  tokens !! pos = Some t →
  parse_apply_loop (S n) tokens pos func next f
  = parse_apply_loop n tokens pos (Apply (tok_loc t) func applicant) next' false.
Proof.
  intros Happ Ht. cbn [parse_apply_loop]. rewrite Happ. cbn [mbind run_mbind run_bind].
  rewrite py_getitem_nat, Ht. done.
Qed.

Lemma parse_apply_loop_stop (n : nat) tokens pos func next f err :
  parse_primal_expr n tokens next = Done (Err err) →
  parse_apply_loop (S n) tokens pos func next f
  = if f then Done (Err err) else Done (Ok (func, next)).
Proof. intros Happ. cbn [parse_apply_loop]. by rewrite Happ. Qed.

Lemma parse_apply_start (n : nat) tokens pos func next :
  parse_primal_expr n tokens pos = Done (Ok (func, next)) →
  parse_apply (S n) tokens pos = parse_apply_loop n tokens pos func next true.
Proof. intros H. cbn [parse_apply]. by rewrite H. Qed.

Lemma spells_cons tokens pos x ts :
  spells tokens pos (x :: ts) →
  (∃ t, tokens !! pos = Some t ∧ (type t, value t) = x) ∧ spells tokens (pos + 1) ts.
Proof.
  intros H. split.
  - destruct (H 0 x eq_refl) as (t & Ht & Hx). rewrite Nat.add_0_r in Ht. by exists t.
  - intros i y Hy. destruct (H (S i) y Hy) as (t & Ht & Hx).
    exists t. split; [|done]. by replace (pos + 1 + i) with (pos + S i) by lia.
Qed.

Lemma spells_app tokens pos ts1 ts2 :
  spells tokens pos (ts1 ++ ts2) →
  spells tokens pos ts1 ∧ spells tokens (pos + length ts1) ts2.
Proof.
  intros H. split.
  - intros i x Hx. apply H. by apply lookup_app_l_Some.
  - intros i x Hx. destruct (H (length ts1 + i) x) as (t & Ht & Htx).
    + rewrite lookup_app_r by lia. by replace (length ts1 + i - length ts1) with i by lia.
    + exists t. split; [|done]. by rewrite <- Nat.add_assoc.
Qed.

Lemma spells_bound tokens pos ts :
  spells tokens pos ts → ts ≠ [] → tokens ≠ [] ∧ pos + length ts ≤ length tokens.
Proof.
  intros H Hne.
  destruct (lookup_lt_is_Some_2 ts (length ts - 1)) as [x Hx].
  { destruct ts; [done|cbn; lia]. }
  destruct (H _ _ Hx) as (t & Ht & _). apply lookup_lt_Some in Ht.
  assert (0 < length ts) by (destruct ts; [done|cbn; lia]).
  split; [|lia]. intros ->. cbn in Ht. lia.
Qed.

Lemma toks_head (e : Expression) :
  ∃ k v ts, toks e = (k, v) :: ts ∧ (k = IDENTIFIER ∨ k = L_PAREN).
Proof.
  induction e as [i|l p body _|l e _|l f IHf a _]; cbn [toks]; eauto 6.
  destruct (is_Lambda f); [eauto 6|].
  destruct IHf as (k & v & ts & -> & Hk). cbn. eauto 6.
Qed.

Lemma toks_not_nil (e : Expression) : toks e ≠ [].
Proof. destruct (toks_head e) as (k & v & ts & -> & _). done. Qed.

Lemma stop_follow_primal (e : Expression) tokens pos :
  stop tokens pos → follow_primal e tokens pos.
Proof.
  intros Hstop. destruct e; cbn; try done.
  destruct Hstop as [->| ->]; congruence.
Qed.

(** From a primary expression to the start of the loop of [parse_apply]. *)
Lemma parse_apply_of_primal tokens pos e' next N :
  (∀ k, parse_primal_expr (N + k) tokens pos = Done (Ok (e', next))) →
  ∀ m R, parse_apply_loop m tokens pos e' next true = Done R →
         parse_apply (S N + m) tokens pos = Done R.
Proof.
  intros Hprim m R Hloop. cbn [Nat.add].
  rewrite (parse_apply_start _ _ _ _ _ (Hprim m)).
  rewrite Nat.add_comm. by apply parse_apply_loop_Done.
Qed.

(** A primary expression that ends at a [stop] is a whole expression. *)
Lemma parse_expr_of_primal tokens pos e' next N :
  tokens ≠ [] → next ≤ length tokens → stop tokens next →
  (∀ k, parse_primal_expr (N + k) tokens pos = Done (Ok (e', next))) →
  ∀ k, parse_expr (S (S (S (S (S N)))) + k) tokens pos = Done (Ok (e', next)).
Proof.
  intros Hne Hnext Hstop Hprim k.
  destruct (parse_primal_expr_stop (N + k) tokens next Hne Hnext Hstop) as [err Herr].
  assert (Happ : parse_apply (S (S (S (S (N + k))))) tokens pos = Done (Err err)).
  { rewrite (parse_apply_start _ _ _ e' next).
    - by rewrite (parse_apply_loop_stop _ _ _ _ _ _ err).
    - replace (S (S (S (N + k)))) with (N + S (S (S k))) by lia. apply Hprim. }
  cbn [Nat.add parse_expr]. rewrite Happ. cbn [mbind run_mbind run_bind].
  replace (S (S (S (S (N + k))))) with (N + S (S (S (S k)))) by lia. by rewrite Hprim.
Qed.

(** The parser reads back the tokens of a printed tree: if the tokens from
    [pos] spell the tree [e], of the parser's grammar, then [parse_expr],
    [parse_primal_expr] and the loop of [parse_apply] rebuild [e], positions
    apart, and end right after it. *)
Lemma parse_toks (e : Expression) :
  parser_shape e = true →
  ∀ tokens pos, spells tokens pos (toks e) →
    (stop tokens (pos + length (toks e)) →
     ∃ e' N, unloc e' = unloc e ∧
             ∀ k, parse_expr (N + k) tokens pos = Done (Ok (e', pos + length (toks e)))) ∧
    (is_Apply e = false → follow_primal e tokens (pos + length (toks e)) →
     ∃ e' N, unloc e' = unloc e ∧
             ∀ k, parse_primal_expr (N + k) tokens pos
                  = Done (Ok (e', pos + length (toks e)))) ∧
    (is_Lambda e = false → last_follow e tokens (pos + length (toks e)) →
     ∃ e' N, unloc e' = unloc e ∧
             ∀ m R, parse_apply_loop m tokens pos e' (pos + length (toks e))
                      (negb (is_Apply e)) = Done R →
                    parse_apply (N + m) tokens pos = Done R).
Proof.
  induction e as [i|l p body IHb|l e IHe|l f IHf a IHa]; intros Hshape tokens pos Hsp;
    destruct (spells_bound _ _ _ Hsp (toks_not_nil _)) as [Hne Hlen].
  - (* Identifier *)
    cbn [toks length] in *. apply spells_cons in Hsp as [(t & Ht & [= Htype Hval]) _].
    assert (HP : follow_primal (Identifier i) tokens (pos + 1) →
                 ∃ e' N, unloc e' = unloc (Identifier i) ∧
                         ∀ k, parse_primal_expr (N + k) tokens pos = Done (Ok (e', pos + 1))).
    { intros Hfollow. eexists _, 2. split; [|intros k; by apply parse_primal_expr_identifier].
      cbn. by rewrite Hval. }
    split; [|split].
    + intros Hstop. destruct (HP (stop_follow_primal _ _ _ Hstop)) as (e' & N & He' & Hprim).
      exists e', (S (S (S (S (S N))))). split; [done|]. by apply parse_expr_of_primal.
    + intros _. exact HP.
    + intros _ Hfollow. destruct (HP Hfollow) as (e' & N & He' & Hprim).
      exists e', (S N). split; [done|]. by apply parse_apply_of_primal.
  - (* Lambda *)
    cbn [toks length parser_shape] in *.
    apply spells_cons in Hsp as [(t & Ht & [= Htype Hval]) Hsp].
    apply spells_cons in Hsp as [(t' & Ht' & [= Htype' _]) Hsp].
    replace (pos + 1 + 1) with (pos + 2) in Hsp by lia.
    replace (pos + S (S (length (toks body)))) with (pos + 2 + length (toks body))
      in * by lia.
    assert (HP : stop tokens (pos + 2 + length (toks body)) →
                 ∃ e' N, unloc e' = unloc (Lambda l p body) ∧
                         ∀ k, parse_primal_expr (N + k) tokens pos
                              = Done (Ok (e', pos + 2 + length (toks body)))).
    { intros Hstop.
      destruct (IHb Hshape tokens (pos + 2) Hsp) as [HE _].
      destruct (HE Hstop) as (b' & N & Hb' & Hbody).
      eexists _, (S (S N)). split; [|intros k; by eapply parse_primal_expr_lambda].
      cbn. by rewrite Hval, Hb'. }
    split; [|split].
    + intros Hstop. destruct (HP Hstop) as (e' & N & He' & Hprim).
      exists e', (S (S (S (S (S N))))). split; [done|]. by apply parse_expr_of_primal.
    + intros _. exact HP.
    + discriminate.
  - (* Parentheses *)
    cbn [toks length parser_shape] in *.
    apply spells_cons in Hsp as [(t & Ht & [= Htype _]) Hsp].
    apply spells_app in Hsp as [Hsp Hclose].
    apply spells_cons in Hclose as [(t' & Ht' & [= Htype' _]) _].
    rewrite length_app in *. cbn [length] in *.
    replace (pos + S (length (toks e) + 1)) with (pos + 1 + length (toks e) + 1)
      in * by lia.
    assert (HP : ∃ e' N, unloc e' = unloc (Parentheses l e) ∧
                         ∀ k, parse_primal_expr (N + k) tokens pos
                              = Done (Ok (e', pos + 1 + length (toks e) + 1))).
    { destruct (IHe Hshape tokens (pos + 1) Hsp) as [HE _].
      destruct HE as (e1 & N & He1 & Hin).
      { right. unfold kind_at. rewrite Ht'. cbn. by rewrite Htype'. }
      eexists _, (S (S N)). split;
        [|intros k; by eapply parse_primal_expr_parentheses].
      cbn. by rewrite He1. }
    destruct HP as (e' & N & He' & Hprim).
    split; [|split].
    + intros Hstop. exists e', (S (S (S (S (S N))))). split; [done|].
      by apply parse_expr_of_primal.
    + intros _ _. by exists e', N.
    + intros _ _. exists e', (S N). split; [done|]. by apply parse_apply_of_primal.
  - (* Apply *)
    cbn [parser_shape] in Hshape.
    apply andb_true_iff in Hshape as [Hshape Hsa].
    apply andb_true_iff in Hshape as [Hshape Hsf].
    apply andb_true_iff in Hshape as [Hend Happ].
    apply negb_true_iff in Hend, Happ.
    assert (Hlamf : is_Lambda f = false) by by destruct f.
    cbn [toks] in Hsp, Hlen |- *. rewrite Hlamf in Hsp, Hlen |- *.
    rewrite length_app in Hlen |- *.
    apply spells_app in Hsp as [Hspf Hspa].
    replace (pos + (length (toks f) + length (toks a)))
      with (pos + length (toks f) + length (toks a)) in * by lia.
    destruct (IHf Hsf tokens pos Hspf) as (_ & _ & HCf).
    destruct (IHa Hsa tokens (pos + length (toks f)) Hspa) as (_ & HPa & _).
    assert (Hfollowf : last_follow f tokens (pos + length (toks f))).
    { destruct (toks_head a) as (k & v & ts & Hhead & Hk). rewrite Hhead in Hspa.
      apply spells_cons in Hspa as [(t & Ht & [= Htype _]) _].
      assert (Hkind : kind_at tokens (pos + length (toks f)) ≠ Some DOT).
      { unfold kind_at. rewrite Ht. cbn. rewrite Htype. destruct Hk as [->| ->]; congruence. }
      destruct f as [i|l' p b|l' e|l' f1 a1]; cbn; try done.
      cbn in Hend. by destruct a1. }
    destruct (HCf Hlamf Hfollowf) as (f' & Nf & Hf' & Hchain).
    assert (Ht0 : ∃ t0, tokens !! pos = Some t0).
    { destruct (toks_head f) as (k & v & ts & Hhead & _). rewrite Hhead in Hspf.
      apply spells_cons in Hspf as [(t & Ht & _) _]. by exists t. }
    destruct Ht0 as [t0 Ht0].
    assert (HC : follow_primal a tokens (pos + length (toks f) + length (toks a)) →
                 ∃ e' N, unloc e' = unloc (Apply l f a) ∧
                         ∀ m R, parse_apply_loop m tokens pos e'
                                  (pos + length (toks f) + length (toks a)) false = Done R →
                                parse_apply (N + m) tokens pos = Done R).
    { intros Hfollow. destruct (HPa Happ Hfollow) as (a' & Na & Ha' & Hprim).
      exists (Apply (tok_loc t0) f' a'), (Nf + S Na). split.
      - cbn. by rewrite Hf', Ha'.
      - intros m R Hloop.
        replace (Nf + S Na + m) with (Nf + S (Na + m)) by lia. apply Hchain.
        rewrite (parse_apply_loop_step _ _ _ _ _ _ _ _ _ (Hprim m) Ht0).
        rewrite Nat.add_comm. by apply parse_apply_loop_Done. }
    split; [|split].
    + intros Hstop. destruct (HC (stop_follow_primal _ _ _ Hstop)) as (e' & N & He' & Hrun).
      exists e', (S (N + 3)). split; [done|]. intros k.
      destruct (parse_primal_expr_stop 0 tokens _ Hne Hlen Hstop) as [err Herr].
      assert (Happly : parse_apply (N + 3) tokens pos
                       = Done (Ok (e', pos + length (toks f) + length (toks a)))).
      { apply Hrun. by rewrite (parse_apply_loop_stop _ _ _ _ _ _ err). }
      apply (parse_apply_Done _ k) in Happly.
      cbn [Nat.add parse_expr]. by rewrite Happly.
    + discriminate.
    + intros _ Hfollow. cbn [is_Apply negb]. by apply HC.
Qed.

Lemma list_ascii_of_string_app (s1 s2 : string) :
  list_ascii_of_string (s1 ++ s2)
  = list_ascii_of_string s1 ++ list_ascii_of_string s2.
Proof.
  induction s1 as [|c s1 IH]; [done|].
  simpl. by f_equal.
Qed.

Lemma one_line_tokens_letter (file : string) (c : nat) (ch : ascii) (rest : list ascii) :
  char_in ch ident_start_chars = true →
  tok_abs <$> one_line_tokens file c (ch :: rest)
  = (IDENTIFIER, String ch EmptyString) :: (tok_abs <$> one_line_tokens file (S c) rest).
Proof.
  intros Hch. destruct (ident_start_not_mark ch Hch) as (_ & H1 & H2 & H3 & H4 & H5).
  cbn [one_line_tokens]. unfold char_token. by rewrite H1, H2, H3, H4, H5.
Qed.

Lemma one_line_tokens_dot (file : string) (c : nat) (rest : list ascii) :
  tok_abs <$> one_line_tokens file c ("."%char :: rest)
  = (DOT, ".") :: (tok_abs <$> one_line_tokens file (S c) rest).
Proof. reflexivity. Qed.

Lemma one_line_tokens_open (file : string) (c : nat) (rest : list ascii) :
  tok_abs <$> one_line_tokens file c ("("%char :: rest)
  = (L_PAREN, "(") :: (tok_abs <$> one_line_tokens file (S c) rest).
Proof. reflexivity. Qed.

Lemma one_line_tokens_close (file : string) (c : nat) (rest : list ascii) :
  tok_abs <$> one_line_tokens file c (")"%char :: rest)
  = (R_PAREN, ")") :: (tok_abs <$> one_line_tokens file (S c) rest).
Proof. reflexivity. Qed.

Lemma one_line_tokens_space (file : string) (c : nat) (rest : list ascii) :
  tok_abs <$> one_line_tokens file c (" "%char :: rest)
  = tok_abs <$> one_line_tokens file (S c) rest.
Proof. reflexivity. Qed.

(** The text of a tree of the parser's grammar whose names have one letter
    is a text of one line of one-character identifiers, and its tokens are
    those of the tree. *)
Lemma to_str_tokens (e : Expression) (file : string) :
  parser_shape e = true → all_names one_letter e = true →
  ∀ (rest : list ascii) (c : nat),
    match rest with [] => True | ch :: _ => char_in ch ident_chars = false end →
    single_letter_text rest = true →
    single_letter_text (list_ascii_of_string (to_str e) ++ rest) = true ∧
    tok_abs <$> one_line_tokens file c (list_ascii_of_string (to_str e) ++ rest)
    = toks e ++ (tok_abs <$> one_line_tokens file
                               (c + length (list_ascii_of_string (to_str e))) rest).
Proof.
  induction e as [i|l p body IHb|l e IHe|l f IHf a IHa];
    cbn [parser_shape all_names to_str toks]; intros Hshape Hnames rest c Hhead Hrest.
  - destruct i as [li [|ch [|? ?]]]; cbn [name one_letter] in *; try discriminate.
    cbn [list_ascii_of_string app length]. split.
    + cbn [single_letter_text]. rewrite Hnames, Hrest.
      destruct rest as [|ch' rest]; [by rewrite orb_true_r|].
      by rewrite Hhead, orb_true_r.
    + rewrite one_line_tokens_letter by done. by rewrite Nat.add_1_r.
  - apply andb_true_iff in Hnames as [Hp Hnames].
    destruct p as [lp [|ch [|? ?]]]; cbn [name one_letter] in *; try discriminate.
    destruct (IHb Hshape Hnames rest (S (S c)) Hhead Hrest) as (Hslt & Htok).
    rewrite !list_ascii_of_string_app. cbn [list_ascii_of_string].
    rewrite <- !app_assoc. cbn [app length]. split.
    + cbn [single_letter_text]. rewrite Hp, Hslt. by rewrite orb_true_r.
    + rewrite one_line_tokens_letter, one_line_tokens_dot by done.
      rewrite Htok. repeat first [lia | progress f_equal].
  - destruct (IHe Hshape Hnames (")"%char :: rest) (S c)) as (Hslt & Htok);
      [done|cbn [single_letter_text]; by rewrite Hrest|].
    rewrite !list_ascii_of_string_app. cbn [list_ascii_of_string].
    rewrite <- !app_assoc. cbn [app]. split.
    + cbn [single_letter_text]. by rewrite Hslt.
    + rewrite one_line_tokens_open, Htok, one_line_tokens_close.
      rewrite <- app_assoc. cbn [app length]. rewrite length_app. cbn [length].
      repeat first [lia | progress f_equal].
  - apply andb_true_iff in Hshape as [Hshape Hsa].
    apply andb_true_iff in Hshape as [Hshape Hsf].
    apply andb_true_iff in Hshape as [Hend _]. apply negb_true_iff in Hend.
    assert (Hlamf : is_Lambda f = false) by by destruct f.
    apply andb_true_iff in Hnames as [Hnf Hna].
    rewrite Hlamf. rewrite !list_ascii_of_string_app. cbn [list_ascii_of_string].
    rewrite <- !app_assoc. cbn [app].
    destruct (IHa Hsa Hna rest (c + length (list_ascii_of_string (to_str f)) + 1)
                Hhead Hrest) as (Hslta & Htoka).
    destruct (IHf Hsf Hnf (" "%char :: list_ascii_of_string (to_str a) ++ rest) c)
      as (Hsltf & Htokf); [done|cbn [single_letter_text]; by rewrite Hslta|].
    split; [done|].
    rewrite Htokf, one_line_tokens_space. f_equal.
    replace (S (c + length (list_ascii_of_string (to_str f))))
      with (c + length (list_ascii_of_string (to_str f)) + 1) by lia.
    rewrite Htoka, !length_app. cbn [length]. repeat first [lia | progress f_equal].
Qed.

Lemma reprint_printable (e : Expression) (file : string) :
  parser_shape e = true → all_names one_letter e = true →
  ∃ fuel e', unloc e' = unloc e ∧ ∀ k, parse (fuel + k) (to_str e) file = Done e'.
Proof.
  intros Hshape Hnames.
  destruct (to_str_tokens e file Hshape Hnames [] 1 I eq_refl) as [Hslt Htok].
  rewrite app_nil_r in Hslt, Htok. cbn [one_line_tokens fmap list_fmap] in Htok.
  rewrite app_nil_r in Htok.
  pose proof (tokenize_one_line file (to_str e) Hslt) as Htokenize.
  set (tokens := one_line_tokens file 1 (list_ascii_of_string (to_str e))) in *.
  assert (Hlen : length tokens = length (toks e)).
  { by rewrite <- Htok, length_fmap. }
  assert (Hsp : spells tokens 0 (toks e)).
  { intros i x Hx. rewrite <- Htok, list_lookup_fmap in Hx.
    apply fmap_Some in Hx as (t & Ht & ->). by exists t. }
  destruct (parse_toks e Hshape tokens 0 Hsp) as [HE _].
  destruct HE as (e' & N & He' & Hparse).
  { left. unfold kind_at. rewrite lookup_ge_None_2; [done|]. cbn. lia. }
  exists N, e'. split; [done|]. intros k.
  unfold parse. rewrite Htokenize. cbn [mbind run_mbind run_bind].
  rewrite Hparse. cbn [mbind run_mbind run_bind Nat.add].
  by rewrite Hlen, Nat.eqb_refl.
Qed.

(** X27.  Printing and parsing again gives the tree back.  For every tree
    of the parser's grammar (applications are chains nested to the left,
    made of primary expressions of which only the last may be a lambda)
    whose names are single letters or underscores, [parse] of its text
    returns, for every fuel from some fuel on, a tree that is the same but
    for the positions, parentheses included. *)
Theorem reprint_round_trip (e : Expression) (file : string) :
  parser_shape e = true → all_names one_letter e = true →
  ∃ fuel e', unloc e' = unloc e ∧ ∀ k, parse (fuel + k) (to_str e) file = Done e'.
Proof. apply reprint_printable. Qed.

Lemma reprint_round_trip_witness :
  let e := Apply no_loc
             (Parentheses no_loc
                (Lambda no_loc (MkIdent no_loc "x") (Identifier (MkIdent no_loc "x"))))
             (Identifier (MkIdent no_loc "y")) in
  ∃ fuel e', unloc e' = unloc e ∧ ∀ k, parse (fuel + k) (to_str e) "<stdin>" = Done e'.
Proof.
  apply (reprint_round_trip
           (Apply no_loc
              (Parentheses no_loc
                 (Lambda no_loc (MkIdent no_loc "x") (Identifier (MkIdent no_loc "x"))))
              (Identifier (MkIdent no_loc "y")))); reflexivity.
Defined.

Lemma ends_with_Lambda_primal (e : Expression) :
  is_Apply e = false → ends_with_Lambda e = is_Lambda e.
Proof. by destruct e. Qed.

(** The trees that the parser builds are trees of its grammar, and their
    names are spellings of identifier tokens. *)
Lemma parse_printable_all (P : string → bool) (tokens : list Token) (fuel : nat) :
  (∀ pos t, tokens !! pos = Some t → type t = IDENTIFIER → P (value t) = true) →
  (∀ pos e next,
     parse_lambda fuel tokens pos = Done (Ok (e, next)) →
     parser_shape e = true ∧ all_names P e = true ∧ is_Apply e = false) ∧
  (∀ pos e next,
     parse_parentheses fuel tokens pos = Done (Ok (e, next)) →
     parser_shape e = true ∧ all_names P e = true ∧ is_Apply e = false) ∧
  (∀ pos e next,
     parse_apply fuel tokens pos = Done (Ok (e, next)) →
     parser_shape e = true ∧ all_names P e = true) ∧
  (∀ pos func next f e next',
     parser_shape func = true → all_names P func = true →
     (ends_with_Lambda func = true →
      ∃ m err, parse_primal_expr m tokens next = Done (Err err)) →
     parse_apply_loop fuel tokens pos func next f = Done (Ok (e, next')) →
     parser_shape e = true ∧ all_names P e = true) ∧
  (∀ pos e next,
     parse_primal_expr fuel tokens pos = Done (Ok (e, next)) →
     parser_shape e = true ∧ all_names P e = true ∧ is_Apply e = false) ∧
  (∀ pos e next,
     parse_expr fuel tokens pos = Done (Ok (e, next)) →
     parser_shape e = true ∧ all_names P e = true).
Proof.
  intros HP.
  assert (Hident : ∀ pos t, expect IDENTIFIER tokens pos = Done (Ok t) → P (value t) = true).
  { intros pos t H. apply expect_Ok_spec in H as [Ht Htype]. by apply (HP pos). }
  induction fuel as [|fuel (IHlam & IHpar & IHapp & IHloop & IHprim & IHexpr)].
  { repeat split; discriminate. }
  split; [|split; [|split; [|split; [|split]]]].
  - intros pos e next H. cbn [parse_lambda] in H. run_inv H.
    injection H as <- <-. cbn [parser_shape all_names name is_Apply].
    match goal with
    | H1 : parse_expr fuel tokens _ = Done (Ok _),
      H2 : expect IDENTIFIER tokens pos = Done (Ok _) |- _ =>
        apply IHexpr in H1 as [? ?]; apply Hident in H2
    end.
    repeat split; [done|by apply andb_true_iff].
  - intros pos e next H. cbn [parse_parentheses] in H. run_inv H.
    injection H as <- <-. cbn [parser_shape all_names is_Apply].
    match goal with
    | H1 : parse_expr fuel tokens _ = Done (Ok _) |- _ => apply IHexpr in H1 as [? ?]
    end.
    by repeat split.
  - intros pos e next H. cbn [parse_apply] in H. run_inv H.
    pose proof Ha as Hprim. apply IHprim in Ha as (Hs & Hn & Hnapp).
    eapply IHloop; [exact Hs|exact Hn| |exact H].
    rewrite (ends_with_Lambda_primal _ Hnapp). intros Hlam.
    destruct (parse_primal_expr_Lambda_greedy _ _ _ _ _ Hprim Hlam) as [err Herr]. eauto.
  - intros pos func next f e next' Hs Hn Hinv H.
    cbn [parse_apply_loop] in H. run_inv H.
    + destruct (ends_with_Lambda func) eqn:Hend.
      { destruct (Hinv eq_refl) as (m & err & Herr).
        pose proof (parse_primal_expr_agree _ _ _ _ _ _ Herr Ha). discriminate. }
      pose proof Ha as Hprim. apply IHprim in Ha as (Hsa & Hna & Hnapp).
      eapply IHloop; [| | |exact H].
      * cbn [parser_shape]. by rewrite Hend, Hnapp, Hs, Hsa.
      * cbn [all_names]. by rewrite Hn, Hna.
      * cbn [ends_with_Lambda]. intros Hlam.
        destruct (parse_primal_expr_Lambda_greedy _ _ _ _ _ Hprim Hlam) as [err Herr].
        eauto.
    + by injection H as <- <-.
  - intros pos e next H. cbn [parse_primal_expr] in H. run_inv H.
    + injection H as <- <-. eauto.
    + injection H as <- <-. eauto.
    + injection H as <- <-. cbn [parser_shape all_names name is_Apply].
      match goal with
      | H2 : expect IDENTIFIER tokens pos = Done (Ok _) |- _ => apply Hident in H2
      end.
      by repeat split.
  - intros pos e next H. cbn [parse_expr] in H. run_inv H.
    + injection H as <- <-. eauto.
    + injection H as <- <-.
      match goal with
      | H1 : parse_primal_expr fuel tokens pos = Done (Ok _) |- _ =>
          apply IHprim in H1 as (? & ? & _)
      end.
      done.
Qed.

Lemma one_line_tokens_identifiers (file : string) (chars : list ascii) (c : nat) :
  single_letter_text chars = true →
  ∀ pos t, one_line_tokens file c chars !! pos = Some t → type t = IDENTIFIER →
           one_letter (value t) = true.
Proof.
  revert c. induction chars as [|ch chars IH]; intros c Hslt pos t Ht Htype; [done|].
  cbn [single_letter_text] in Hslt. apply andb_true_iff in Hslt as [Hch Hslt].
  cbn [one_line_tokens] in Ht. apply lookup_app_Some in Ht as [Ht|[_ Ht]];
    [|by apply (IH (S c) Hslt _ _ Ht)].
  unfold char_token in Ht. unfold char_in in Hch at 1.
  cbn [list_ascii_of_string existsb] in Hch.
  repeat match type of Ht with
    | context [if ?b then _ else _] => destruct b eqn:?
    end;
    destruct pos; try discriminate; injection Ht as <-; try discriminate.
  cbn [orb] in Hch. cbn [value one_letter].
  by apply andb_true_iff in Hch as [Hch _].
Qed.

Lemma parse_Done_inv (fuel : nat) (code file : string) (e : Expression) :
  parse fuel code file = Done e →
  ∃ tokens, tokenize file code = Done tokens ∧
            parse_expr fuel tokens 0 = Done (Ok (e, length tokens)).
Proof.
  unfold parse. intros H. apply bind_Done_inv in H as (tokens & Htok & H).
  apply bind_Done_inv in H as (res & Hres & H). exists tokens. split; [done|].
  destruct res as [[e0 next]|err]; [|discriminate].
  destruct (next =? length tokens) eqn:Hnext; cbn [negb] in H.
  - apply Nat.eqb_eq in Hnext. by injection H as <-; subst.
  - by destruct (py_getitem tokens (Z.of_nat next)).
Qed.

(** X28.  Every tree that [parse] returns is a tree of the grammar: each
    application is a chain of primary expressions nested to the left, its
    argument is never itself an application, and only the last primary
    expression of a chain may be a lambda. *)
Theorem parse_tree_shape (fuel : nat) (code file : string) (e : Expression) :
  parse fuel code file = Done e → parser_shape e = true.
Proof.
  intros H. apply parse_Done_inv in H as (tokens & _ & H).
  by apply (parse_printable_all (λ _, true) tokens fuel) in H as [? _].
Qed.

Lemma parse_tree_shape_witness :
  parser_shape (Lambda (stdin_loc 1 1) (ident_at "x" 1 1) (Identifier (ident_at "x" 1 3)))
  = true.
Proof. apply (parse_tree_shape 40 "x.x" "<stdin>"). vm_compute. reflexivity. Defined.

(** X29.  The round trip of the parser on the texts that the lexer reads
    well.  If [parse] returns a tree for a text of one line whose
    identifiers have one character each, then [parse] of the text of that
    tree returns, for every fuel from some fuel on, the same tree but for
    the positions. *)
Theorem parse_reprint (fuel : nat) (code file : string) (e : Expression) :
  single_letter_text (list_ascii_of_string code) = true →
  parse fuel code file = Done e →
  ∃ fuel' e', unloc e' = unloc e ∧ ∀ k, parse (fuel' + k) (to_str e) file = Done e'.
Proof.
  intros Hslt H. apply parse_Done_inv in H as (tokens & Htok & H).
  rewrite (tokenize_one_line file code Hslt) in Htok. injection Htok as <-.
  apply (parse_printable_all one_letter _ fuel) in H as [Hshape Hnames].
  - by apply reprint_printable.
  - by apply one_line_tokens_identifiers.
Qed.

Lemma parse_reprint_witness :
  let e := Apply (stdin_loc 1 1)
             (Parentheses (stdin_loc 1 1)
                (Lambda (stdin_loc 1 2) (ident_at "x" 1 2) (Identifier (ident_at "x" 1 4))))
             (Identifier (ident_at "a" 1 7)) in
  ∃ fuel' e', unloc e' = unloc e ∧
              ∀ k, parse (fuel' + k) (to_str e) "<stdin>" = Done e'.
Proof.
  apply (parse_reprint 40 "(x.x) a" "<stdin>").
  - reflexivity.
  - vm_compute. reflexivity.
Defined.
